(** * Content collection schemas of andarms.com

    The site declares two content collections, [blog] and [project], in
    its content configuration module.  Each collection carries a zod
    schema; at build time the front-matter of every entry is parsed
    against the schema of its collection, which either yields the
    normalized metadata record or a list of issues that aborts the build.

    The development embeds
    - the JavaScript values a front-matter block can hold ([value]),
    - the fragment of zod 3 that the schemas are written in ([ZodType],
      [_parse], [safeParse]), following the methods of zod's [types.ts]
      and [helpers/parseUtil.ts] (synchronous branch),
    - the schemas themselves, in both versions found in the history of
      the repository ([blog], [project], [blog_v1], [project_v1]),
    and proves the properties the specification states about them.

    Objects, arrays and dates are JavaScript objects with an identity.
    Each such value carries the identity it was allocated with, and the
    parser threads the allocation counter, so that sharing between
    results is observable. *)

From Stdlib Require Import Floats Ascii String.
From stdpp Require Import gmap strings list fin_maps.

#[local] Set Warnings "-register-all".

(** ** JavaScript values *)

(** The values produced by the front-matter reader: [undefined] is what a
    property read yields for an absent key.  Numbers and the time value
    of a date are IEEE doubles ([NaN] time value: an invalid date). *)
Inductive value :=
| VUndefined
| VNull
| VBoolean (b : bool)
| VNumber (x : float)
| VString (s : string)
| VDate (id : nat) (time : float)
| VArray (id : nat) (items : list value)
| VObject (id : nat) (fields : gmap string value).

(** zod's [ZodParsedType], restricted to the types of [value]. *)
Inductive ZodParsedType :=
| PT_string | PT_nan | PT_number | PT_boolean | PT_date
| PT_undefined | PT_null | PT_array | PT_object.

(** [getParsedType] of zod's [helpers/util.ts]. *)
Definition getParsedType (data : value) : ZodParsedType :=
  match data with
  | VUndefined => PT_undefined
  | VString _ => PT_string
  | VNumber x => if PrimFloat.is_nan x then PT_nan else PT_number
  | VBoolean _ => PT_boolean
  | VArray _ _ => PT_array
  | VNull => PT_null
  | VDate _ _ => PT_date
  | VObject _ _ => PT_object
  end.

Definition is_undefined (v : value) : bool :=
  match v with VUndefined => true | _ => false end.

(** [data[key]]: reading a property of an object. *)
Definition get (fields : gmap string value) (key : string) : value :=
  default VUndefined (fields !! key).

(** [key in data]. *)
Definition has (fields : gmap string value) (key : string) : bool :=
  bool_decide (is_Some (fields !! key)).

(** The property [key] of a value, [undefined] when it is not an object. *)
Definition prop (v : value) (key : string) : value :=
  match v with VObject _ fields => get fields key | _ => VUndefined end.

(** The value with every object identity forgotten: two values with the
    same [content] are deeply equal. *)
Fixpoint content (v : value) : value :=
  match v with
  | VDate _ time => VDate 0 time
  | VArray _ items => VArray 0 (map content items)
  | VObject _ fields => VObject 0 (content <$> fields)
  | _ => v
  end.

(** ** Issues *)

Inductive PathElem := Key (k : string) | Index (i : nat).

Inductive StringValidation := validation_url.

(** [ZodIssue], with the issue codes the schema fragment can raise.  A
    union that matches no option reports the issues of every option. *)
Inductive ZodIssue :=
| invalid_type (expected received : ZodParsedType) (path : list PathElem)
| invalid_string (validation : StringValidation) (path : list PathElem)
| invalid_date (path : list PathElem)
| invalid_union (unionErrors : list (list ZodIssue)) (path : list PathElem).

Definition issue_path (i : ZodIssue) : list PathElem :=
  match i with
  | invalid_type _ _ p | invalid_string _ p | invalid_date p
  | invalid_union _ p => p
  end.

(** The message zod's default error map ([locales/en.ts]) gives an
    issue; a value that is [undefined] where a type was expected is
    reported as "Required". *)
Definition type_name (t : ZodParsedType) : string :=
  match t with
  | PT_string => "string" | PT_nan => "nan" | PT_number => "number"
  | PT_boolean => "boolean" | PT_date => "date"
  | PT_undefined => "undefined" | PT_null => "null"
  | PT_array => "array" | PT_object => "object"
  end.

Definition defaultErrorMap (i : ZodIssue) : string :=
  match i with
  | invalid_type _ PT_undefined _ => "Required"
  | invalid_type expected received _ =>
      "Expected " +:+ type_name expected +:+ ", received " +:+ type_name received
  | invalid_string validation_url _ => "Invalid url"
  | invalid_date _ => "Invalid date"
  | invalid_union _ _ => "Invalid input"
  end.

(** ** The parser monad

    A parse threads the allocation counter and emits issues
    ([addIssueToContext] appends to the issue list of the context). *)
Definition Parser (A : Type) : Type := nat → A * list ZodIssue * nat.

Definition ret {A} (a : A) : Parser A := λ n, (a, [], n).

Definition bind {A B} (m : Parser A) (k : A → Parser B) : Parser B :=
  λ n, let '(a, i1, n1) := m n in
       let '(b, i2, n2) := k a n1 in
       (b, i1 ++ i2, n2).

#[global] Instance Parser_ret : MRet Parser := @ret.
#[global] Instance Parser_bind : MBind Parser := λ A B k m, bind m k.

Definition addIssueToContext (i : ZodIssue) : Parser unit := λ n, (tt, [i], n).

Definition addIssues (l : list ZodIssue) : Parser unit := λ n, (tt, l, n).

(** Allocation of a new object. *)
Definition fresh : Parser nat := λ n, (n, [], S n).

(** Running a parser against a child context with an issue list of its
    own: the issues are handed to the caller instead of being emitted. *)
Definition childCtx {A} (m : Parser A) : Parser (A * list ZodIssue) :=
  λ n, let '(a, i, n') := m n in ((a, i), [], n').

Fixpoint mapM {A B} (f : A → Parser B) (l : list A) : Parser (list B) :=
  match l with
  | [] => mret []
  | x :: l' => b ← f x; bs ← mapM f l'; mret (b :: bs)
  end.

(** ** zod: schema types and parse results *)

Inductive ZodStringCheck := check_url.

Inductive ZodType :=
| ZodString (checks : list ZodStringCheck)
| ZodBoolean
| ZodDate
| ZodArray (element : ZodType)
| ZodOptional (innerType : ZodType)
| ZodDefault (innerType : ZodType) (defaultValue : value)
| ZodUnion (options : list ZodType)
| ZodObject (shape : list (string * ZodType)).

(** [SyncParseReturnType]: status [aborted], [dirty] or [valid]. *)
Inductive ParseReturn :=
| INVALID
| DIRTY (v : value)
| OK (v : value).

Definition isValid (r : ParseReturn) : bool :=
  match r with OK _ => true | _ => false end.

(** The schema builder, as the source spells it. *)
Module z.
Definition string : ZodType := ZodString [].
Definition boolean : ZodType := ZodBoolean.
Definition date : ZodType := ZodDate.
Definition array (t : ZodType) : ZodType := ZodArray t.
Definition object (shape : list (String.string * ZodType)) : ZodType :=
  ZodObject shape.
Definition optional (t : ZodType) : ZodType := ZodOptional t.
Definition default (t : ZodType) (def : value) : ZodType := ZodDefault t def.
Definition or (t option : ZodType) : ZodType := ZodUnion [t; option].
Definition url (t : ZodType) : ZodType :=
  match t with
  | ZodString checks => ZodString (checks ++ [check_url])
  | _ => t
  end.
End z.

(** ** The URL constructor

    [z.string().url()] accepts a string when [new URL(s)] does not throw.
    The WHATWG parser, called without a base, first strips the input,
    then reads a scheme (scheme start state, scheme state) and fails in
    the no scheme state when there is none.  These states are modelled;
    what the parser does after the colon that ends the scheme is the
    runtime's and is left as a parameter of the development. *)
Definition is_C0_or_space (c : ascii) : bool :=
  bool_decide (nat_of_ascii c ≤ 32)%nat.

Definition is_tab_or_newline (c : ascii) : bool :=
  bool_decide (nat_of_ascii c = 9 ∨ nat_of_ascii c = 10 ∨ nat_of_ascii c = 13)%nat.

Definition is_ascii_alpha (c : ascii) : bool :=
  let n := nat_of_ascii c in
  bool_decide ((65 ≤ n ∧ n ≤ 90) ∨ (97 ≤ n ∧ n ≤ 122))%nat.

Definition is_ascii_digit (c : ascii) : bool :=
  let n := nat_of_ascii c in bool_decide (48 ≤ n ∧ n ≤ 57)%nat.

(** ASCII alphanumeric, [+], [-] or [.]. *)
Definition is_scheme_char (c : ascii) : bool :=
  is_ascii_alpha c || is_ascii_digit c
  || bool_decide (nat_of_ascii c = 43 ∨ nat_of_ascii c = 45 ∨ nat_of_ascii c = 46)%nat.

Fixpoint strip_leading (s : string) : string :=
  match s with
  | String c s' => if is_C0_or_space c then strip_leading s' else s
  | EmptyString => EmptyString
  end.

Fixpoint strip_trailing (s : string) : string :=
  match s with
  | String c s' =>
      match strip_trailing s' with
      | EmptyString => if is_C0_or_space c then EmptyString else String c EmptyString
      | rest => String c rest
      end
  | EmptyString => EmptyString
  end.

Fixpoint remove_tab_or_newline (s : string) : string :=
  match s with
  | String c s' =>
      if is_tab_or_newline c then remove_tab_or_newline s'
      else String c (remove_tab_or_newline s')
  | EmptyString => EmptyString
  end.

(** Scheme state: the remainder after the colon, or [None] when the
    input ends or another character comes first. *)
Fixpoint scheme_state (s : string) : option string :=
  match s with
  | String c s' =>
      if is_scheme_char c then scheme_state s'
      else if bool_decide (c = ":"%char) then Some s'
      else None
  | EmptyString => None
  end.

(** Scheme start state. *)
Definition scheme_start_state (s : string) : option string :=
  match s with
  | String c s' => if is_ascii_alpha c then scheme_state s' else None
  | EmptyString => None
  end.

(** ** Query *)

(** Modelled from the spec: the entries handed to the rendering layer,
    [{ id, metadata }]; the rendering of the body is not modelled. *)
Record NormalizedEntry := {
  entry_id : string;
  metadata : value;
}.

(** Modelled from the spec: [getAll] of the content API, which is not
    part of the schema module.  A registered collection holds its
    normalized entries in file-enumeration order. *)
Definition getAll (registry : gmap string (list NormalizedEntry))
    (collectionName : string) : list NormalizedEntry :=
  default [] (registry !! collectionName).

(** Modelled from the spec: [Query(collectionName, predicate?)] of the
    content API, which is not part of the schema module.  It returns the
    entries of the collection in the order the collection holds them,
    keeping those the predicate accepts when one is given. *)
Definition Query (registry : gmap string (list NormalizedEntry))
    (collectionName : string) (predicate : option (NormalizedEntry → bool))
    : list NormalizedEntry :=
  match predicate with
  | Some p => List.filter p (getAll registry collectionName)
  | None => getAll registry collectionName
  end.

(** The predicates [draft == false] and [draft == true] on an entry. *)
Definition draft_is (b : bool) (e : NormalizedEntry) : bool :=
  match prop (metadata e) "draft" with
  | VBoolean b' => bool_decide (b' = b)
  | _ => false
  end.

(** ** Entries used in the concrete runs *)

(** The concrete runs fix the runtime's part of the URL parser to one that
    accepts whatever follows a scheme; the blog schema never reaches it. *)
Definition accept_after_scheme : string → bool := λ _, true.

(** The entries of the scenarios of the specification. *)
Definition scenario_A_fields : gmap string value :=
  {[ "title" := VString "Hello"; "date" := VString "2026-01-15" ]}.

Definition scenario_A (id : nat) : value := VObject id scenario_A_fields.

Definition scenario_A_normalized (tags_id id : nat) : value :=
  VObject id {[ "title" := VString "Hello";
                "date" := VString "2026-01-15";
                "tags" := VArray tags_id [];
                "draft" := VBoolean false ]}.

Definition scenario_B_fields : gmap string value :=
  {[ "title" := VString "X";
     "date" := VString "2026-01-15";
     "repo" := VString "not-a-url" ]}.


Definition entry_without_title : gmap string value :=
  {[ "date" := VString "2026-01-15" ]}.

(** An entry with a key that no collection declares. *)
Definition entry_with_author : gmap string value :=
  {[ "title" := VString "Hello";
     "date" := VString "2026-01-15";
     "author" := VString "andarms" ]}.

Definition entry_with_project : gmap string value :=
  {[ "title" := VString "Collision Detection and Physics";
     "date" := VString "2026-01-28";
     "project" := VString "game-engine" ]}.

Definition entry_with_project_normalized : value :=
  VObject 4 {[ "title" := VString "Collision Detection and Physics";
               "date" := VString "2026-01-28";
               "tags" := VArray 3 [];
               "project" := VString "game-engine";
               "draft" := VBoolean false ]}.

Definition entry_with_bad_tag : gmap string value :=
  {[ "title" := VString "Hello";
     "date" := VString "2026-01-15";
     "tags" := VArray 2 [VString "gamedev"; VNull] ]}.

Definition entry_with_invalid_date : gmap string value :=
  {[ "title" := VString "Hello"; "date" := VDate 2 nan ]}.


Definition post (id : string) (draft : bool) : NormalizedEntry :=
  {| entry_id := id;
     metadata := VObject 0 {[ "title" := VString id; "draft" := VBoolean draft ]} |}.

Definition scenario_C : gmap string (list NormalizedEntry) :=
  {[ "blog" := [ post "a" false; post "b" true; post "c" false;
                 post "d" true; post "e" false ] ]}.

(** The first devlog entry of the repository: its [date] is read from
    the front-matter as a date (2026-01-15, in milliseconds since the
    epoch), and handed on as a new date object. *)
Definition devlog_entry : gmap string value :=
  {[ "title" := VString "Building My GOM (Game Object Model) System";
     "description" := VString "How I designed a component-based game object architecture for my 2D game engine.";
     "date" := VDate 2 1768435200000%float;
     "project" := VString "game-engine";
     "tags" := VArray 3 [VString "gamedev"; VString "csharp"; VString "raylib"];
     "draft" := VBoolean false ]}.

Section Validator.

(** The states of the URL parser that follow the scheme (authority,
    host, port, path, query, fragment), as a predicate on the stripped
    input: whether they run to the end without failure. *)
Variable URL_remaining_states : string → bool.

(** [new URL(s)] returns instead of throwing. *)
Definition new_URL (s : string) : bool :=
  let input := remove_tab_or_newline (strip_trailing (strip_leading s)) in
  match scheme_start_state input with
  | Some _ => URL_remaining_states input
  | None => false
  end.

(** ** zod: [_parse] *)

Definition invalid_type_error (expected : ZodParsedType) (path : list PathElem)
    (data : value) : Parser ParseReturn :=
  addIssueToContext (invalid_type expected (getParsedType data) path);;
  mret INVALID.

(** The checks of a [ZodString], in order; [status.dirty()] on failure. *)
Fixpoint string_checks (checks : list ZodStringCheck) (path : list PathElem)
    (s : string) (dirty : bool) : Parser bool :=
  match checks with
  | [] => mret dirty
  | check_url :: rest =>
      if new_URL s then string_checks rest path s dirty
      else addIssueToContext (invalid_string validation_url path);;
           string_checks rest path s true
  end.

(** [ParseStatus.mergeArray]: the loop over the item results. *)
Fixpoint mergeItems (results : list ParseReturn) (dirty : bool)
    (arrayValue : list value) : option (bool * list value) :=
  match results with
  | [] => Some (dirty, arrayValue)
  | INVALID :: _ => None
  | DIRTY v :: rest => mergeItems rest true (arrayValue ++ [v])
  | OK v :: rest => mergeItems rest dirty (arrayValue ++ [v])
  end.

Definition mergeArray (results : list ParseReturn) : Parser ParseReturn :=
  id ← fresh;
  mret (match mergeItems results false [] with
        | None => INVALID
        | Some (dirty, arrayValue) =>
            if dirty then DIRTY (VArray id arrayValue) else OK (VArray id arrayValue)
        end).

(** A parsed property of an object: key, result, [alwaysSet]. *)
Definition ObjectPair : Type := string * ParseReturn * bool.

Definition setProperty (key : string) (v : value) (alwaysSet : bool)
    (finalObject : gmap string value) : gmap string value :=
  if bool_decide (key ≠ "__proto__") && (negb (is_undefined v) || alwaysSet)
  then <[key := v]> finalObject
  else finalObject.

(** [ParseStatus.mergeObjectSync]: the loop over the pairs. *)
Fixpoint mergePairs (pairs : list ObjectPair) (dirty : bool)
    (finalObject : gmap string value) : option (bool * gmap string value) :=
  match pairs with
  | [] => Some (dirty, finalObject)
  | (_, INVALID, _) :: _ => None
  | (key, DIRTY v, alwaysSet) :: rest =>
      mergePairs rest true (setProperty key v alwaysSet finalObject)
  | (key, OK v, alwaysSet) :: rest =>
      mergePairs rest dirty (setProperty key v alwaysSet finalObject)
  end.

Definition mergeObjectSync (pairs : list ObjectPair) : Parser ParseReturn :=
  id ← fresh;
  mret (match mergePairs pairs false ∅ with
        | None => INVALID
        | Some (dirty, finalObject) =>
            if dirty then DIRTY (VObject id finalObject)
            else OK (VObject id finalObject)
        end).

(** [ZodUnion._parse], synchronous branch: the options run in order,
    each against a child context; the first valid result is returned;
    failing that, the first dirty result with its issues; failing that,
    one [invalid_union] issue that carries the issues of the options. *)
Fixpoint union_sync (path : list PathElem) (options : list (Parser ParseReturn))
    (dirty : option (ParseReturn * list ZodIssue))
    (issues : list (list ZodIssue)) : Parser ParseReturn :=
  match options with
  | [] =>
      match dirty with
      | Some (result, dirty_issues) => addIssues dirty_issues;; mret result
      | None => addIssueToContext (invalid_union issues path);; mret INVALID
      end
  | option :: rest =>
      '(result, child_issues) ← childCtx option;
      let issues' :=
        match child_issues with [] => issues | _ => issues ++ [child_issues] end in
      match result with
      | OK _ => mret result
      | DIRTY _ =>
          union_sync path rest
            (match dirty with None => Some (result, child_issues) | _ => dirty end)
            issues'
      | INVALID => union_sync path rest dirty issues'
      end
  end.

Fixpoint _parse (t : ZodType) (path : list PathElem) (data : value)
    {struct t} : Parser ParseReturn :=
  match t with
  | ZodString checks =>
      match data with
      | VString s =>
          dirty ← string_checks checks path s false;
          mret (if dirty : bool then DIRTY data else OK data)
      | _ => invalid_type_error PT_string path data
      end
  | ZodBoolean =>
      match data with
      | VBoolean _ => mret (OK data)
      | _ => invalid_type_error PT_boolean path data
      end
  | ZodDate =>
      match data with
      | VDate _ time =>
          if PrimFloat.is_nan time
          then addIssueToContext (invalid_date path);; mret INVALID
          else id ← fresh; mret (OK (VDate id time))
      | _ => invalid_type_error PT_date path data
      end
  | ZodArray element =>
      match data with
      | VArray _ items =>
          results ← mapM (λ '(i, item), _parse element (path ++ [Index i]) item)
                         (imap pair items);
          mergeArray results
      | _ => invalid_type_error PT_array path data
      end
  | ZodOptional innerType =>
      match data with
      | VUndefined => mret (OK VUndefined)
      | _ => _parse innerType path data
      end
  | ZodDefault innerType defaultValue =>
      _parse innerType path
        (match data with VUndefined => defaultValue | _ => data end)
  | ZodUnion options =>
      union_sync path (map (λ option, _parse option path data) options) None []
  | ZodObject shape =>
      match data with
      | VObject _ fields =>
          pairs ← mapM (λ '(key, keyValidator),
                          result ← _parse keyValidator (path ++ [Key key])
                                     (get fields key);
                          mret (key, result, has fields key))
                       shape;
          mergeObjectSync pairs
      | _ => invalid_type_error PT_object path data
      end
  end.

(** [safeParse]: the result object of [handleResult]. *)
Inductive SafeParseReturn :=
| Success (data : value)
| Failure (error : list ZodIssue).

Definition safeParse (t : ZodType) (data : value) (n : nat)
    : SafeParseReturn * nat :=
  let '(result, issues, n') := _parse t [] data n in
  (match result with OK v => Success v | _ => Failure issues end, n').

(** ** The collections *)

Record CollectionConfig := defineCollection {
  type : string;
  schema : ZodType;
}.

(** The array literals [[]] of the two [tags] defaults are allocated
    once, when the module is evaluated. *)
Definition blog_tags_default : value := VArray 0 [].
Definition project_tags_default : value := VArray 1 [].
Definition module_allocations : nat := 2.

Definition blog : CollectionConfig :=
  defineCollection "content"
    (z.object
       [ ("title", z.string);
         ("description", z.optional z.string);
         ("date", z.or z.string z.date);
         ("tags", z.default (z.array z.string) blog_tags_default);
         ("project", z.optional z.string);
         ("draft", z.default z.boolean (VBoolean false)) ]).

Definition project : CollectionConfig :=
  defineCollection "content"
    (z.object
       [ ("title", z.string);
         ("description", z.optional z.string);
         ("date", z.or z.string z.date);
         ("url", z.optional (z.url z.string));
         ("repo", z.optional (z.url z.string));
         ("thumbnail", z.optional z.string);
         ("tags", z.default (z.array z.string) project_tags_default);
         ("draft", z.default z.boolean (VBoolean false)) ]).

Definition collections : list (string * CollectionConfig) :=
  [ ("blog", blog); ("project", project) ].



(** Validation of an entry's metadata against a collection. *)
Definition validate (c : CollectionConfig) (data : value) (n : nat)
    : SafeParseReturn * nat :=
  safeParse (schema c) data n.

(** ** Reading the issues

    The issues of one field: those whose path starts at its key. *)
Definition concerns (key : string) (i : ZodIssue) : Prop :=
  [Key key] `prefix_of` issue_path i.

(** The specification's error taxonomy, read on zod's issues.  A missing
    required value is the issue reported as "Required"; for a union, the
    case where every option reports it. *)
Inductive SchemaValidationError :=
| MissingRequiredField
| TypeMismatch
| MalformedURL.

Fixpoint classify (i : ZodIssue) : SchemaValidationError :=
  match i with
  | invalid_type _ PT_undefined _ => MissingRequiredField
  | invalid_type _ _ _ => TypeMismatch
  | invalid_string validation_url _ => MalformedURL
  | invalid_date _ => TypeMismatch
  | invalid_union unionErrors _ =>
      if forallb (forallb (λ e,
           match classify e with MissingRequiredField => true | _ => false end))
           unionErrors
      then MissingRequiredField else TypeMismatch
  end.

(** A parser respects [Q] when it never lowers the allocation counter
    and every issue it emits satisfies [Q]. *)
Definition respects {A} (Q : ZodIssue → Prop) (m : Parser A) : Prop :=
  ∀ n a iss n', m n = (a, iss, n') → n ≤ n' ∧ Forall Q iss.

(** One step of the loop of [ZodObject._parse] over the shape keys. *)
Definition parse_property (path : list PathElem) (fields : gmap string value)
    (kv : string * ZodType) : Parser ObjectPair :=
  let '(key, keyValidator) := kv in
  result ← _parse keyValidator (path ++ [Key key]) (get fields key);
  mret (key, result, has fields key).

(** The trace of the loop over the shape keys: each property is parsed
    where the previous one left the allocation counter. *)
Inductive properties_run (path : list PathElem) (fields : gmap string value) :
  list (string * ZodType) → nat → list ObjectPair → list ZodIssue → nat → Prop :=
| run_done n : properties_run path fields [] n [] [] n
| run_step k t shape n r i n1 pairs iss n2 :
    _parse t (path ++ [Key k]) (get fields k) n = (r, i, n1) →
    properties_run path fields shape n1 pairs iss n2 →
    properties_run path fields ((k, t) :: shape) n
      ((k, r, has fields k) :: pairs) (i ++ iss) n2.

(** The value a result carries. *)
Definition value_of (r : ParseReturn) : value :=
  match r with OK v | DIRTY v => v | INVALID => VUndefined end.

(** The result of an object parse with one more property set. *)
Definition with_property (k : string) (v : value) (b : bool)
    (r : ParseReturn) : ParseReturn :=
  match r with
  | OK (VObject oid f) => OK (VObject oid (setProperty k v b f))
  | DIRTY (VObject oid f) => DIRTY (VObject oid (setProperty k v b f))
  | _ => r
  end.

Definition is_string (v : value) : bool :=
  match v with VString _ => true | _ => false end.

Definition is_success (r : SafeParseReturn) : bool :=
  match r with Success _ => true | Failure _ => false end.

(** The issues a validation reports. *)
Definition issues_of (r : SafeParseReturn) : list ZodIssue :=
  match r with Success _ => [] | Failure error => error end.

(** The items of [z.array(z.string())]: strings are kept, anything else
    aborts. *)
Definition item_result (v : value) : ParseReturn :=
  if is_string v then OK v else INVALID.

(** The keys a collection declares. *)
Definition declared_keys (c : CollectionConfig) : list string :=
  match schema c with ZodObject shape => shape.*1 | _ => [] end.

Definition shape_of (c : CollectionConfig) : list (string * ZodType) :=
  match schema c with ZodObject shape => shape | _ => [] end.

(** The values [z.string().or(z.date())] accepts: a string, or a date
    whose time value is a number. *)
Definition date_accepted (v : value) : bool :=
  match v with
  | VString _ => true
  | VDate _ time => negb (PrimFloat.is_nan time)
  | _ => false
  end.

(** A validator is idempotent when it accepts what it returned, and
    returns it again up to the identity of the objects. *)
Definition idempotent (t : ZodType) : Prop :=
  ∀ path v n r i n',
    _parse t path v n = (OK r, i, n') →
    ∀ m, ∃ r' m', _parse t path r m = (OK r', [], m') ∧ content r' = content r.

(** ** The schemas read as conditions on values *)

Definition check_passes (s : string) (check : ZodStringCheck) : bool :=
  match check with check_url => new_URL s end.

(** The values a schema describes: what the declaration says, with no
    parsing involved. *)
Fixpoint accepts (t : ZodType) (v : value) {struct t} : bool :=
  match t with
  | ZodString checks =>
      match v with VString s => forallb (check_passes s) checks | _ => false end
  | ZodBoolean => match v with VBoolean _ => true | _ => false end
  | ZodDate =>
      match v with VDate _ time => negb (PrimFloat.is_nan time) | _ => false end
  | ZodArray element =>
      match v with VArray _ items => forallb (accepts element) items | _ => false end
  | ZodOptional innerType =>
      match v with VUndefined => true | _ => accepts innerType v end
  | ZodDefault innerType defaultValue =>
      accepts innerType (match v with VUndefined => defaultValue | _ => v end)
  | ZodUnion options => existsb (λ option, accepts option v) options
  | ZodObject shape =>
      match v with
      | VObject _ fields =>
          forallb (λ '(key, keyValidator), accepts keyValidator (get fields key)) shape
      | _ => false
      end
  end.

(** A parser decides [g] when, whatever the allocation counter, its
    result is valid exactly when [g] holds, and it reports an issue
    exactly when its result is not valid. *)
Definition decides {B} (valid : B → bool) (g : bool) (m : Parser B) : Prop :=
  ∀ n b iss n', m n = (b, iss, n') → valid b = g ∧ (iss = [] ↔ g = true).

(** The conditions on the fields of the two collections. *)
Definition optional_string_ok (v : value) : bool := is_string v || is_undefined v.

Definition tags_ok (v : value) : bool :=
  match v with
  | VUndefined => true
  | VArray _ items => forallb is_string items
  | _ => false
  end.

Definition draft_ok (v : value) : bool :=
  match v with VUndefined | VBoolean _ => true | _ => false end.

Definition url_ok (v : value) : bool :=
  match v with
  | VUndefined => true
  | VString s => new_URL s
  | _ => false
  end.

(** Whether a field is declared with [.optional()]. *)
Definition is_optional (t : ZodType) : bool :=
  match t with ZodOptional _ => true | _ => false end.

(** The identities of the objects a value is made of. *)
Inductive has_identity (a : nat) : value → Prop :=
| identity_date time : has_identity a (VDate a time)
| identity_array items : has_identity a (VArray a items)
| identity_object fields : has_identity a (VObject a fields)
| identity_item id items item :
    item ∈ items → has_identity a item → has_identity a (VArray id items)
| identity_property id fields key v :
    fields !! key = Some v → has_identity a v → has_identity a (VObject id fields).

(** The issues of an array of strings: one for each item that is not a
    string, at the index of the item. *)
Definition item_issues (path : list PathElem) (g : nat → nat) (items : list value)
    : list ZodIssue :=
  concat (imap (λ i x,
            if is_string x then []
            else [invalid_type PT_string (getParsedType x) (path ++ [Index (g i)])])
          items).

(** Whether a string holds a colon. *)
Fixpoint has_colon (s : string) : bool :=
  match s with
  | String c s' => bool_decide (c = ":"%char) || has_colon s'
  | EmptyString => false
  end.

(** Two results that are alike up to the identity of the objects. *)
Definition same_result (r r' : ParseReturn) : Prop :=
  match r, r' with
  | INVALID, INVALID => True
  | DIRTY v, DIRTY v' | OK v, OK v' => content v = content v'
  | _, _ => False
  end.

(** Two parsers are alike when, whatever the allocation counters they
    start from, they report the same issues and return related values. *)
Definition alike {B} (R : B → B → Prop) (p q : Parser B) : Prop :=
  ∀ n m b i n' b' i' m',
    p n = (b, i, n') → q m = (b', i', m') → i = i' ∧ R b b'.

Definition same_pair (p p' : ObjectPair) : Prop :=
  p.1.1 = p'.1.1 ∧ same_result p.1.2 p'.1.2 ∧ p.2 = p'.2.

(** The issue reported as "Required" is the missing required field. *)
Lemma Required_is_missing expected received path :
  defaultErrorMap (invalid_type expected received path) = "Required" ↔
  classify (invalid_type expected received path) = MissingRequiredField.
Proof. destruct expected, received; split; intros H; done. Qed.

(** ** The parser monad: equations and invariants *)

Ltac unfold_parser :=
  unfold mbind, mret, Parser_bind, Parser_ret, bind, ret, invalid_type_error,
    addIssueToContext, addIssues, fresh, childCtx in *.

Lemma ZodType_nested_ind (P : ZodType → Prop) :
  (∀ checks, P (ZodString checks)) →
  P ZodBoolean →
  P ZodDate →
  (∀ element, P element → P (ZodArray element)) →
  (∀ innerType, P innerType → P (ZodOptional innerType)) →
  (∀ innerType d, P innerType → P (ZodDefault innerType d)) →
  (∀ options, Forall P options → P (ZodUnion options)) →
  (∀ shape, Forall (λ kt, P kt.2) shape → P (ZodObject shape)) →
  ∀ t, P t.
Proof.
  intros Hs Hb Hd Ha Ho Hdef Hu Hobj. fix IH 1.
  intros [checks| | |e|t|t d|options|shape].
  - apply Hs.
  - apply Hb.
  - apply Hd.
  - apply Ha, IH.
  - apply Ho, IH.
  - apply Hdef, IH.
  - apply Hu. induction options as [|o options IHo]; constructor;
      [apply IH|exact IHo].
  - apply Hobj. induction shape as [|[k t] shape IHs]; constructor;
      [apply IH|exact IHs].
Qed.

Lemma mapM_cons {A B} (f : A → Parser B) x l n :
  mapM f (x :: l) n =
  let '(b, i1, n1) := f x n in
  let '(bs, i2, n2) := mapM f l n1 in
  (b :: bs, i1 ++ i2, n2).
Proof.
  simpl. unfold_parser. destruct (f x n) as [[b i1] n1].
  destruct (mapM f l n1) as [[bs i2] n2]. by rewrite app_nil_r.
Qed.

Lemma mapM_ext {A B} (f g : A → Parser B) l n :
  (∀ x m, x ∈ l → f x m = g x m) → mapM f l n = mapM g l n.
Proof.
  revert n. induction l as [|x l IH]; intros n Hfg; [done|].
  rewrite !mapM_cons, Hfg by left.
  destruct (g x n) as [[b i1] n1]. rewrite IH; [done|].
  intros y m Hy. apply Hfg. by right.
Qed.

Lemma mapM_app {A B} (f : A → Parser B) l1 l2 n :
  mapM f (l1 ++ l2) n =
  let '(bs1, i1, n1) := mapM f l1 n in
  let '(bs2, i2, n2) := mapM f l2 n1 in
  (bs1 ++ bs2, i1 ++ i2, n2).
Proof.
  revert n. induction l1 as [|x l1 IH]; intros n; simpl app.
  - simpl. unfold_parser. by destruct (mapM f l2 n) as [[bs2 i2] n2].
  - rewrite !mapM_cons. destruct (f x n) as [[b i0] n0]. rewrite IH.
    destruct (mapM f l1 n0) as [[bs1 i1] n1].
    destruct (mapM f l2 n1) as [[bs2 i2] n2]. by rewrite app_assoc.
Qed.

Lemma respects_mapM {A B} Q (f : A → Parser B) l :
  (∀ x, x ∈ l → respects Q (f x)) → respects Q (mapM f l).
Proof.
  induction l as [|x l IH]; intros Hf n a iss n' Hrun.
  - inversion Hrun; subst. split; [lia|constructor].
  - rewrite mapM_cons in Hrun.
    destruct (f x n) as [[b i1] n1] eqn:E1.
    destruct (mapM f l n1) as [[bs i2] n2] eqn:E2.
    inversion Hrun; subst.
    apply Hf in E1 as [? ?]; [|by left].
    apply IH in E2 as [? ?]; [|intros y Hy; apply Hf; by right].
    split; [lia|]. by apply Forall_app.
Qed.

Lemma bind_inv {A B} (m : Parser A) (k : A → Parser B) n b iss n' :
  (m ≫= k) n = (b, iss, n') →
  ∃ a i1 n1 i2, m n = (a, i1, n1) ∧ k a n1 = (b, i2, n') ∧ iss = i1 ++ i2.
Proof.
  unfold mbind, Parser_bind, bind. destruct (m n) as [[a i1] n1].
  destruct (k a n1) as [[b' i2] n2] eqn:E. intros [= <- <- <-].
  by exists a, i1, n1, i2.
Qed.

Lemma bind_run {A B} (m : Parser A) (k : A → Parser B) n a i1 n1 :
  m n = (a, i1, n1) →
  (m ≫= k) n = (let '(b, i2, n2) := k a n1 in (b, i1 ++ i2, n2)).
Proof. unfold mbind, Parser_bind, bind. by intros ->. Qed.

Lemma respects_string_checks checks path s dirty :
  respects (λ i, path `prefix_of` issue_path i) (string_checks checks path s dirty).
Proof.
  revert dirty. induction checks as [|[] checks IH]; intros dirty n a iss n' Hrun.
  - inversion Hrun; subst. split; [lia|constructor].
  - simpl in Hrun. destruct (new_URL s); [by eapply IH|].
    apply bind_inv in Hrun as (? & i1 & n1 & i2 & E1 & E2 & ->).
    inversion E1; subst. apply IH in E2 as [? ?].
    split; [done|]. by constructor.
Qed.

Lemma respects_union_sync path options dirty issues :
  Forall (respects (λ i, path `prefix_of` issue_path i)) options →
  (∀ r di, dirty = Some (r, di) → Forall (λ i, path `prefix_of` issue_path i) di) →
  respects (λ i, path `prefix_of` issue_path i) (union_sync path options dirty issues).
Proof.
  intros Hopts. revert dirty issues.
  induction Hopts as [|o options Ho Hopts IH]; intros dirty issues Hd n a iss n' Hrun.
  - simpl in Hrun. destruct dirty as [[r di]|]; unfold_parser;
      inversion Hrun; subst; (split; [lia|]).
    + rewrite app_nil_r. by eapply Hd.
    + by constructor.
  - simpl in Hrun.
    apply bind_inv in Hrun as ([r ci] & i1 & n1 & i2 & E1 & E2 & ->).
    unfold childCtx in E1. destruct (o n) as [[r' ci'] n1'] eqn:Eo.
    inversion E1; subst. apply Ho in Eo as [? Hci]. simpl.
    destruct r as [|v|v].
    + apply IH in E2 as [? ?]; [split; [lia|done]|done].
    + apply IH in E2 as [? ?]; [split; [lia|done]|].
      intros r di Hsome. destruct dirty as [[r0 d0]|].
      * by eapply Hd.
      * by inversion Hsome; subst.
    + inversion E2; subst. split; [lia|constructor].
Qed.

Lemma prefix_of_snoc {A} (p q : list A) x : (p ++ [x]) `prefix_of` q → p `prefix_of` q.
Proof. intros [r ->]. exists (x :: r). by rewrite <-app_assoc. Qed.

Ltac solve_leaf :=
  let Hrun := fresh in
  intros ? ? ? ? Hrun; unfold_parser; inversion Hrun; subst;
  split; [lia|by repeat constructor].

(** Every parse allocates upwards and reports its issues at or below
    the path it was called with. *)
Lemma _parse_respects t :
  ∀ path data, respects (λ i, path `prefix_of` issue_path i) (_parse t path data).
Proof.
  induction t as [checks| | |e IH|t IH|t d IH|options IH|shape IH]
    using ZodType_nested_ind; intros path data.
  - destruct data; simpl; try solve_leaf.
    intros n a iss n' Hrun.
    apply bind_inv in Hrun as (dirty & i1 & n1 & i2 & E1 & E2 & ->).
    inversion E2; subst. apply respects_string_checks in E1 as [? ?].
    by rewrite app_nil_r.
  - destruct data; simpl; solve_leaf.
  - destruct data; simpl; try destruct (PrimFloat.is_nan time); solve_leaf.
  - destruct data; simpl; try solve_leaf.
    intros n a iss n' Hrun.
    apply bind_inv in Hrun as (rs & i1 & n1 & i2 & E1 & E2 & ->).
    unfold mergeArray in E2. unfold_parser. inversion E2; subst.
    apply (respects_mapM (λ i, path `prefix_of` issue_path i)) in E1 as [? ?].
    + split; [lia|by rewrite app_nil_r].
    + intros [i item] _ m a iss m' Hi. apply IH in Hi as [? Hi]. split; [done|].
      eapply Forall_impl; [exact Hi|]. intros x. apply prefix_of_snoc.
  - destruct data; simpl; try apply IH. solve_leaf.
  - simpl. apply IH.
  - simpl. apply respects_union_sync; [|done].
    apply Forall_map. eapply Forall_impl; [exact IH|]. intros o Ho. apply Ho.
  - destruct data; simpl; try solve_leaf.
    intros n a iss n' Hrun.
    apply bind_inv in Hrun as (rs & i1 & n1 & i2 & E1 & E2 & ->).
    unfold mergeObjectSync in E2. unfold_parser. inversion E2; subst.
    apply (respects_mapM (λ i, path `prefix_of` issue_path i)) in E1 as [? ?].
    + split; [lia|by rewrite app_nil_r].
    + intros [k t] Hin m a iss m' Hi.
      rewrite Forall_forall in IH. specialize (IH _ Hin). simpl in IH.
      destruct (_parse t (path ++ [Key k]) (get fields k) m)
        as [[r j1] m1] eqn:F1.
      inversion Hi; subst. apply IH in F1 as [? Hi2]. split; [done|].
      rewrite app_nil_r. eapply Forall_impl; [exact Hi2|].
      intros x. apply prefix_of_snoc.
Qed.

(** ** Objects: the run over the shape *)

Lemma _parse_object shape path id fields n :
  _parse (ZodObject shape) path (VObject id fields) n =
  let '(pairs, iss, n1) := mapM (parse_property path fields) shape n in
  (match mergePairs pairs false ∅ with
   | None => INVALID
   | Some (dirty, finalObject) =>
       if dirty then DIRTY (VObject n1 finalObject) else OK (VObject n1 finalObject)
   end, iss, S n1).
Proof.
  change (_parse (ZodObject shape) path (VObject id fields))
    with (mapM (parse_property path fields) shape ≫= mergeObjectSync).
  unfold mergeObjectSync. unfold_parser.
  destruct (mapM (parse_property path fields) shape n) as [[pairs iss] n1].
  by rewrite !app_nil_r.
Qed.

Lemma mapM_properties_run path fields shape n pairs iss n' :
  mapM (parse_property path fields) shape n = (pairs, iss, n') →
  properties_run path fields shape n pairs iss n'.
Proof.
  revert n pairs iss n'. induction shape as [|[k t] shape IH]; intros n pairs iss n'.
  - intros [= <- <- <-]. constructor.
  - rewrite mapM_cons. unfold parse_property at 1. unfold_parser.
    destruct (_parse t (path ++ [Key k]) (get fields k) n) as [[r i] n1] eqn:E.
    destruct (mapM (parse_property path fields) shape n1) as [[ps i2] n2] eqn:E2.
    intros [= <- <- <-]. rewrite app_nil_r. econstructor; eauto.
Qed.

Section Run.
Context {path : list PathElem} {fields : gmap string value}.

Lemma run_bounds shape n pairs iss n' :
  properties_run path fields shape n pairs iss n' → n ≤ n'.
Proof.
  induction 1 as [|k t shape n r i n1 pairs iss n2 E _ IH]; [lia|].
  apply _parse_respects in E as [? _]. lia.
Qed.

Lemma run_keys shape n pairs iss n' :
  properties_run path fields shape n pairs iss n' → pairs.*1.*1 = shape.*1.
Proof. induction 1; [done|]. rewrite !fmap_cons. by f_equal. Qed.

(** Each key of the shape was parsed at some point of the run. *)
Lemma run_field shape n pairs iss n' k t :
  properties_run path fields shape n pairs iss n' →
  (k, t) ∈ shape →
  ∃ m r i m', n ≤ m ∧ m' ≤ n' ∧
    _parse t (path ++ [Key k]) (get fields k) m = (r, i, m') ∧
    (k, r, has fields k) ∈ pairs ∧ i ⊆ iss.
Proof.
  induction 1 as [|k0 t0 shape n r i n1 pairs iss n2 E Hrun IH]; intros Hin.
  - by apply elem_of_nil in Hin.
  - apply elem_of_cons in Hin as [[= -> ->]|Hin].
    + exists n, r, i, n1. pose proof (run_bounds _ _ _ _ _ Hrun).
      repeat split; [lia|lia|done|by left|].
      intros x Hx. apply elem_of_app. by left.
    + destruct (IH Hin) as (m & r' & i' & m' & ? & ? & ? & ? & Hsub).
      exists m, r', i', m'. apply _parse_respects in E as [? _].
      repeat split; [lia|lia|done|by right|].
      intros x Hx. apply elem_of_app. right. by apply Hsub.
Qed.

(** Each pair and each issue of the run comes from one key of the shape. *)
Lemma run_pair shape n pairs iss n' k r b :
  properties_run path fields shape n pairs iss n' →
  (k, r, b) ∈ pairs →
  ∃ t m i m', (k, t) ∈ shape ∧ b = has fields k ∧
    _parse t (path ++ [Key k]) (get fields k) m = (r, i, m').
Proof.
  induction 1 as [|k0 t0 shape n r0 i n1 pairs iss n2 E Hrun IH]; intros Hin.
  - by apply elem_of_nil in Hin.
  - apply elem_of_cons in Hin as [[= -> -> ->]|Hin].
    + exists t0, n, i, n1. repeat split; [by left|done].
    + destruct (IH Hin) as (t & m & i' & m' & ? & ? & ?).
      exists t, m, i', m'. repeat split; [by right|done|done].
Qed.

Lemma run_issue shape n pairs iss n' x :
  properties_run path fields shape n pairs iss n' →
  x ∈ iss →
  ∃ k t m r i m', (k, t) ∈ shape ∧
    _parse t (path ++ [Key k]) (get fields k) m = (r, i, m') ∧ x ∈ i.
Proof.
  induction 1 as [|k0 t0 shape n r0 i n1 pairs iss n2 E Hrun IH]; intros Hin.
  - by apply elem_of_nil in Hin.
  - apply elem_of_app in Hin as [Hin|Hin].
    + exists k0, t0, n, r0, i, n1. repeat split; [by left|done|done].
    + destruct (IH Hin) as (k & t & m & r & i' & m' & ? & ? & ?).
      exists k, t, m, r, i', m'. repeat split; [by right|done|done].
Qed.

End Run.

(** ** Objects: merging the pairs *)

Lemma mergePairs_dirty pairs f d' f' :
  mergePairs pairs true f = Some (d', f') → d' = true.
Proof.
  revert f. induction pairs as [|[[k r] b] pairs IH]; intros f; simpl.
  - by intros [= <- _].
  - destruct r; [done|apply IH|apply IH].
Qed.

(** A merge that stays valid saw valid pairs only. *)
Lemma mergePairs_valid pairs d f f' k r b :
  mergePairs pairs d f = Some (false, f') → (k, r, b) ∈ pairs → isValid r = true.
Proof.
  revert d f. induction pairs as [|[[k0 r0] b0] pairs IH]; intros d f Hm Hin.
  - by apply elem_of_nil in Hin.
  - simpl in Hm. apply elem_of_cons in Hin as [[= <- <- <-]|Hin].
    + destruct r; [done| |done]. by apply mergePairs_dirty in Hm.
    + destruct r0; [done|by eapply IH|by eapply IH].
Qed.

Lemma mergePairs_all_valid pairs d f :
  Forall (λ p : ObjectPair, isValid p.1.2 = true) pairs →
  ∃ f', mergePairs pairs d f = Some (d, f').
Proof.
  intros Hall. revert f.
  induction Hall as [|[[k r] b] pairs Hr _ IH]; intros f; simpl; [by eexists|].
  destruct r; [done|done|apply IH].
Qed.

Lemma lookup_setProperty_ne key v b f k :
  k ≠ key → setProperty key v b f !! k = f !! k.
Proof.
  intros. unfold setProperty. case_match; [|done]. by rewrite lookup_insert_ne.
Qed.

Lemma lookup_setProperty_eq key v b f :
  setProperty key v b f !! key =
  if bool_decide (key ≠ "__proto__") && (negb (is_undefined v) || b)
  then Some v else f !! key.
Proof. unfold setProperty. case_match; [|done]. by rewrite lookup_insert_eq. Qed.

(** Keys outside the pairs keep the value they had. *)
Lemma mergePairs_lookup_other pairs d f d' f' k :
  mergePairs pairs d f = Some (d', f') → k ∉ pairs.*1.*1 → f' !! k = f !! k.
Proof.
  revert d f. induction pairs as [|[[k0 r0] b0] pairs IH]; intros d f; simpl.
  - by intros [= _ <-].
  - intros Hm Hk. apply not_elem_of_cons in Hk as [Hne Hk].
    destruct r0; [done| |];
      (erewrite IH; [|exact Hm|done]); by apply lookup_setProperty_ne.
Qed.

(** With distinct keys, each pair decides its own key. *)
Lemma mergePairs_lookup pairs d f d' f' k r b :
  NoDup pairs.*1.*1 →
  mergePairs pairs d f = Some (d', f') → (k, r, b) ∈ pairs →
  f' !! k = setProperty k (value_of r) b f !! k.
Proof.
  revert d f. induction pairs as [|[[k0 r0] b0] pairs IH]; intros d f Hnd Hm Hin.
  - by apply elem_of_nil in Hin.
  - simpl in Hnd. apply NoDup_cons in Hnd as [Hk0 Hnd]. simpl in Hm.
    apply elem_of_cons in Hin as [[= <- <- <-]|Hin].
    + destruct r; [done| |]; by eapply mergePairs_lookup_other.
    + assert (k ≠ k0) as Hne.
      { intros ->. apply Hk0.
        apply (list_elem_of_fmap_2 fst) in Hin.
        by apply (list_elem_of_fmap_2 fst) in Hin. }
      destruct r0; [done| |];
        (erewrite IH; [|done|exact Hm|done]);
        rewrite !lookup_setProperty_eq; (case_match; [done|]);
        by apply lookup_setProperty_ne.
Qed.

(** One pair that is not valid makes the whole merge not valid. *)
Lemma mergePairs_not_valid pairs d f k r b :
  (k, r, b) ∈ pairs → isValid r = false →
  mergePairs pairs d f = None ∨ ∃ f', mergePairs pairs d f = Some (true, f').
Proof.
  revert d f. induction pairs as [|[[k0 r0] b0] pairs IH]; intros d f Hin Hr.
  - by apply elem_of_nil in Hin.
  - simpl. apply elem_of_cons in Hin as [[= <- <- <-]|Hin].
    + destruct r; [by left| |done].
      destruct (mergePairs pairs true _) as [[d' f']|] eqn:E; [|by left].
      right. apply mergePairs_dirty in E as E'. subst. by eexists.
    + destruct r0; [by left|by apply IH|by apply IH].
Qed.

Lemma mergePairs_app ps1 ps2 d f :
  mergePairs (ps1 ++ ps2) d f =
  match mergePairs ps1 d f with
  | Some (d', f') => mergePairs ps2 d' f'
  | None => None
  end.
Proof.
  revert d f. induction ps1 as [|[[k r] b] ps1 IH]; intros d f; simpl; [done|].
  destruct r; [done|apply IH|apply IH].
Qed.

Lemma setProperty_commute k1 v1 b1 k2 v2 b2 f :
  k1 ≠ k2 →
  setProperty k1 v1 b1 (setProperty k2 v2 b2 f) =
  setProperty k2 v2 b2 (setProperty k1 v1 b1 f).
Proof.
  intros. unfold setProperty. repeat case_match; try done.
  by apply insert_insert_ne.
Qed.

(** A property set before the loop can as well be set after it, when
    the loop does not touch its key. *)
Lemma mergePairs_setProperty ps d f k v b :
  k ∉ ps.*1.*1 →
  mergePairs ps d (setProperty k v b f) =
  (λ '(d', f'), (d', setProperty k v b f')) <$> mergePairs ps d f.
Proof.
  revert d f. induction ps as [|[[k0 r0] b0] ps IH]; intros d f Hk; [done|].
  apply not_elem_of_cons in Hk as [Hne Hk]. simpl.
  destruct r0; [done| |]; by rewrite setProperty_commute, IH.
Qed.

(** ** Objects: the parse as a whole *)

Section Object.
Context (shape : list (string * ZodType)) (path : list PathElem).

(** A property that cannot be parsed makes the object fail, and its
    issue is among those reported. *)
Lemma object_not_valid fields k t x :
  (k, t) ∈ shape →
  (∀ m, ∃ r i m', _parse t (path ++ [Key k]) (get fields k) m = (r, i, m') ∧
                  isValid r = false ∧ x ∈ i) →
  ∀ id n, ∃ r iss n',
    _parse (ZodObject shape) path (VObject id fields) n = (r, iss, n') ∧
    isValid r = false ∧ x ∈ iss.
Proof.
  intros Hin Hfield id n. rewrite _parse_object.
  destruct (mapM (parse_property path fields) shape n) as [[pairs iss] n1] eqn:E.
  apply mapM_properties_run in E.
  destruct (run_field _ _ _ _ _ _ _ E Hin) as (m & r & i & m' & _ & _ & Hp & Hpair & Hsub).
  destruct (Hfield m) as (r' & i' & m'' & Hp' & Hr & Hx).
  rewrite Hp in Hp'. inversion Hp'; subst.
  eexists _, iss, _. split; [done|]. split; [|by apply Hsub].
  destruct (mergePairs_not_valid pairs false ∅ _ _ _ Hpair Hr) as [->|[f' ->]]; done.
Qed.

(** What an accepted object looks like: every property was accepted,
    and the result holds exactly the accepted properties. *)
Lemma object_valid_inv id fields n out iss n' :
  NoDup shape.*1 →
  _parse (ZodObject shape) path (VObject id fields) n = (OK out, iss, n') →
  ∃ oid final,
    out = VObject oid final ∧ n ≤ oid ∧ n' = S oid ∧
    (∀ k t, (k, t) ∈ shape →
       ∃ m v i m', n ≤ m ∧ m' ≤ oid ∧
         _parse t (path ++ [Key k]) (get fields k) m = (OK v, i, m') ∧
         final !! k = setProperty k v (has fields k) ∅ !! k) ∧
    (∀ k, k ∉ shape.*1 → final !! k = None).
Proof.
  intros Hnd. rewrite _parse_object.
  destruct (mapM (parse_property path fields) shape n) as [[pairs iss'] n1] eqn:E.
  apply mapM_properties_run in E.
  destruct (mergePairs pairs false ∅) as [[[] final]|] eqn:Hm; [done| |done].
  intros [= <- <- <-]. exists n1, final.
  pose proof (run_keys _ _ _ _ _ E) as Hkeys.
  repeat split; [by eapply run_bounds| |].
  - intros k t Hin.
    destruct (run_field _ _ _ _ _ _ _ E Hin) as (m & r & i & m' & ? & ? & Hp & Hpair & _).
    pose proof (mergePairs_valid _ _ _ _ _ _ _ Hm Hpair) as Hr.
    destruct r as [| |v]; try done.
    exists m, v, i, m'. repeat split; [done|done|done|].
    eapply (mergePairs_lookup pairs) in Hpair; [exact Hpair| |exact Hm].
    by rewrite Hkeys.
  - intros k Hk. erewrite mergePairs_lookup_other; [|exact Hm|by rewrite Hkeys].
    apply lookup_empty.
Qed.

(** Every issue of an object parse is an issue of one of its properties. *)
Lemma object_issue id fields n r iss n' x :
  _parse (ZodObject shape) path (VObject id fields) n = (r, iss, n') →
  x ∈ iss →
  ∃ k t m r' i m', (k, t) ∈ shape ∧
    _parse t (path ++ [Key k]) (get fields k) m = (r', i, m') ∧ x ∈ i.
Proof.
  rewrite _parse_object.
  destruct (mapM (parse_property path fields) shape n) as [[pairs iss'] n1] eqn:E.
  apply mapM_properties_run in E. intros [= _ <- _]. by eapply run_issue.
Qed.

(** Only the keys of the shape are read. *)
Lemma object_ext id fields id' fields' n :
  (∀ k, k ∈ shape.*1 → fields !! k = fields' !! k) →
  _parse (ZodObject shape) path (VObject id fields) n =
  _parse (ZodObject shape) path (VObject id' fields') n.
Proof.
  intros Hagree. rewrite !_parse_object.
  rewrite (mapM_ext (parse_property path fields) (parse_property path fields'));
    [done|].
  intros [k t] m Hin. unfold parse_property, get, has.
  rewrite (Hagree k); [done|]. by apply (list_elem_of_fmap_2 fst) in Hin.
Qed.

(** Accepted properties, whatever the counter, make an accepted object. *)
Lemma object_build fields (c : string → value) :
  NoDup shape.*1 →
  (∀ k t, (k, t) ∈ shape → ∀ m, ∃ v m',
     _parse t (path ++ [Key k]) (get fields k) m = (OK v, [], m') ∧
     content v = c k) →
  ∀ id n, ∃ oid final n',
    _parse (ZodObject shape) path (VObject id fields) n =
      (OK (VObject oid final), [], n') ∧
    (∀ k, k ∈ shape.*1 →
       content <$> final !! k = setProperty k (c k) (has fields k) ∅ !! k) ∧
    (∀ k, k ∉ shape.*1 → final !! k = None).
Proof.
  intros Hnd Hfields id n. rewrite _parse_object.
  destruct (mapM (parse_property path fields) shape n) as [[pairs iss] n1] eqn:E.
  apply mapM_properties_run in E.
  pose proof (run_keys _ _ _ _ _ E) as Hkeys.
  assert (Forall (λ p : ObjectPair, isValid p.1.2 = true) pairs) as Hall.
  { apply Forall_forall. intros [[k r] b] Hpair.
    destruct (run_pair _ _ _ _ _ _ _ _ E Hpair) as (t & m & i & m' & Hin & _ & Hp).
    destruct (Hfields k t Hin m) as (v & m'' & Hp' & _).
    rewrite Hp in Hp'. by inversion Hp'. }
  assert (iss = []) as ->.
  { destruct iss as [|x iss]; [done|].
    destruct (run_issue _ _ _ _ _ x E) as (k & t & m & r & i & m' & Hin & Hp & Hx);
      [by left|].
    destruct (Hfields k t Hin m) as (v & m'' & Hp' & _).
    rewrite Hp in Hp'. inversion Hp'; subst. by apply elem_of_nil in Hx. }
  destruct (mergePairs_all_valid pairs false ∅ Hall) as [final Hm]. rewrite Hm.
  exists n1, final, (S n1). split; [done|]. split.
  - intros k Hk. apply list_elem_of_fmap in Hk as ([k' t] & -> & Hin). simpl.
    destruct (run_field _ _ _ _ _ _ _ E Hin) as (m & r & i & m' & _ & _ & Hp & Hpair & _).
    destruct (Hfields k' t Hin m) as (v & m'' & Hp' & Hc).
    rewrite Hp in Hp'. inversion Hp'; subst.
    erewrite (mergePairs_lookup pairs); [|by rewrite Hkeys|exact Hm|exact Hpair].
    simpl. rewrite !lookup_setProperty_eq, lookup_empty.
    replace (is_undefined (c k')) with (is_undefined v)
      by (rewrite <-Hc; by destruct v).
    case_match; [by rewrite <-Hc|done].
  - intros k Hk. erewrite mergePairs_lookup_other; [|exact Hm|by rewrite Hkeys].
    apply lookup_empty.
Qed.

End Object.

(** A key whose validator accepts the property without allocating or
    reporting anything only adds that property to the result. *)
Lemma object_insert_key s1 s2 k t path id fields v n :
  k ∉ s2.*1 →
  (∀ m, _parse t (path ++ [Key k]) (get fields k) m = (OK v, [], m)) →
  _parse (ZodObject (s1 ++ ((k, t) :: s2))) path (VObject id fields) n =
  let '(r, iss, n') := _parse (ZodObject (s1 ++ s2)) path (VObject id fields) n in
  (with_property k v (has fields k) r, iss, n').
Proof.
  intros Hk Hfield. rewrite !_parse_object, !mapM_app.
  destruct (mapM (parse_property path fields) s1 n) as [[ps1 i1] n1].
  rewrite mapM_cons. unfold parse_property at 1. unfold_parser. rewrite Hfield.
  destruct (mapM (parse_property path fields) s2 n1) as [[ps2 i2] n2] eqn:E.
  apply mapM_properties_run, run_keys in E. simpl.
  rewrite !mergePairs_app.
  destruct (mergePairs ps1 false ∅) as [[d1 f1]|]; [|done]. simpl.
  rewrite mergePairs_setProperty by (by rewrite E).
  destruct (mergePairs ps2 d1 f1) as [[[] f2]|]; done.
Qed.

(** ** The validators of the individual fields *)

(** [title: z.string()] *)
Lemma parse_string path v n :
  _parse z.string path v n =
  if is_string v then (OK v, [], n)
  else (INVALID, [invalid_type PT_string (getParsedType v) path], n).
Proof. by destruct v. Qed.

(** [description], [project], [thumbnail]: [z.string().optional()] *)
Lemma parse_optional_string path v n :
  _parse (z.optional z.string) path v n =
  if is_string v || is_undefined v then (OK v, [], n)
  else (INVALID, [invalid_type PT_string (getParsedType v) path], n).
Proof. by destruct v. Qed.

(** [date: z.string().or(z.date())] *)
Lemma parse_date path v n :
  _parse (z.or z.string z.date) path v n =
  match v with
  | VString _ => (OK v, [], n)
  | VDate _ time =>
      if PrimFloat.is_nan time
      then (INVALID,
            [invalid_union [[invalid_type PT_string PT_date path];
                            [invalid_date path]] path], n)
      else (OK (VDate n time), [], S n)
  | _ => (INVALID,
          [invalid_union [[invalid_type PT_string (getParsedType v) path];
                          [invalid_type PT_date (getParsedType v) path]] path], n)
  end.
Proof.
  destruct v; try reflexivity.
  unfold z.or, z.string, z.date. simpl. unfold_parser. simpl.
  by destruct (PrimFloat.is_nan time).
Qed.

(** [draft: z.boolean().default(false)] *)
Lemma parse_draft path v n :
  _parse (z.default z.boolean (VBoolean false)) path v n =
  match v with
  | VUndefined => (OK (VBoolean false), [], n)
  | VBoolean _ => (OK v, [], n)
  | _ => (INVALID, [invalid_type PT_boolean (getParsedType v) path], n)
  end.
Proof. by destruct v. Qed.

(** [url], [repo]: [z.string().url().optional()] *)
Lemma parse_url path v n :
  _parse (z.optional (z.url z.string)) path v n =
  match v with
  | VUndefined => (OK v, [], n)
  | VString s =>
      if new_URL s then (OK v, [], n)
      else (DIRTY v, [invalid_string validation_url path], n)
  | _ => (INVALID, [invalid_type PT_string (getParsedType v) path], n)
  end.
Proof.
  destruct v; try reflexivity.
  unfold z.optional, z.url, z.string. simpl. unfold_parser.
  by destruct (new_URL s).
Qed.

Lemma parse_string_items path (g : nat → nat) items n :
  ∃ iss,
    mapM (λ '(i, item), _parse z.string (path ++ [Index i]) item)
         (imap (λ i x, (g i, x)) items) n = (item_result <$> items, iss, n) ∧
    (forallb is_string items = true → iss = []).
Proof.
  revert g. induction items as [|x items IH]; intros g.
  - by exists [].
  - destruct (IH (g ∘ S)) as (iss & Hrun & Hnil).
    simpl imap. rewrite mapM_cons, parse_string, fmap_cons.
    unfold item_result at 1. simpl forallb.
    change (imap ((λ i x0, (g i, x0)) ∘ S) items)
      with (imap (λ i x0, ((g ∘ S) i, x0)) items).
    destruct (is_string x); rewrite Hrun; by eexists.
Qed.

Lemma mergeItems_strings items d acc :
  mergeItems (item_result <$> items) d acc =
  if forallb is_string items then Some (d, acc ++ items) else None.
Proof.
  revert acc. induction items as [|x items IH]; intros acc; simpl.
  - by rewrite app_nil_r.
  - unfold item_result at 1. destruct (is_string x); [|done]. simpl.
    by rewrite IH, <-app_assoc.
Qed.

Lemma parse_string_array path id items n :
  ∃ iss,
    _parse (z.array z.string) path (VArray id items) n =
      (if forallb is_string items then OK (VArray n items) else INVALID,
       iss, S n) ∧
    (forallb is_string items = true → iss = []).
Proof.
  destruct (parse_string_items path (λ i, i) items n) as (iss & Hrun & Hnil).
  exists iss. split; [|done].
  change (_parse (z.array z.string) path (VArray id items))
    with (mapM (λ '(i, item), _parse z.string (path ++ [Index i]) item)
               (imap pair items) ≫= mergeArray).
  erewrite bind_run; [|exact Hrun].
  unfold mergeArray. unfold_parser. rewrite mergeItems_strings, app_nil_r.
  by destruct (forallb is_string items).
Qed.

(** [tags: z.array(z.string()).default([])]: what an accepted value
    looks like.  The array of the result is always a new one. *)
Lemma parse_tags_valid d path v n r iss n' :
  _parse (z.default (z.array z.string) (VArray d [])) path v n = (OK r, iss, n') →
  iss = [] ∧ n' = S n ∧
  ((v = VUndefined ∧ r = VArray n []) ∨
   (∃ id items, v = VArray id items ∧ forallb is_string items = true ∧
                r = VArray n items)).
Proof.
  destruct v; try discriminate.
  - destruct (parse_string_array path d [] n) as (iss' & Hrun & Hnil).
    change (_parse (z.default (z.array z.string) (VArray d [])) path VUndefined n)
      with (_parse (z.array z.string) path (VArray d []) n).
    rewrite Hrun. simpl. intros [= <- <- <-]. rewrite Hnil by done. eauto.
  - destruct (parse_string_array path id items n) as (iss' & Hrun & Hnil).
    change (_parse (z.default (z.array z.string) (VArray d [])) path
              (VArray id items) n)
      with (_parse (z.array z.string) path (VArray id items) n).
    rewrite Hrun. destruct (forallb is_string items) eqn:E; [|discriminate].
    intros [= <- <- <-]. rewrite Hnil by done. eauto 10.
Qed.

Lemma parse_tags_strings d path id items n :
  forallb is_string items = true →
  _parse (z.default (z.array z.string) (VArray d [])) path (VArray id items) n =
  (OK (VArray n items), [], S n).
Proof.
  intros Hall.
  destruct (parse_string_array path id items n) as (iss' & Hrun & Hnil).
  change (_parse (z.default (z.array z.string) (VArray d [])) path
            (VArray id items) n)
    with (_parse (z.array z.string) path (VArray id items) n).
  by rewrite Hrun, Hall, Hnil.
Qed.

Lemma content_strings items :
  forallb is_string items = true → map content items = items.
Proof.
  induction items as [|x items IH]; [done|]. simpl.
  destruct x; try done. simpl. intros H. by rewrite IH.
Qed.

(** ** Validation of the collections *)

Lemma schema_shape c :
  c = blog ∨ c = project → schema c = ZodObject (shape_of c).
Proof. by intros [-> | ->]. Qed.

Ltac solve_elem_of :=
  repeat first [apply list_elem_of_here | apply list_elem_of_further].

Lemma shape_NoDup c : c = blog ∨ c = project → NoDup (shape_of c).*1.
Proof. intros [-> | ->]; apply (bool_decide_unpack _); by vm_compute. Qed.

Lemma validate_success c data n out n' :
  validate c data n = (Success out, n') →
  ∃ iss, _parse (schema c) [] data n = (OK out, iss, n').
Proof.
  unfold validate, safeParse.
  destruct (_parse (schema c) [] data n) as [[[| |v] iss] m]; try done.
  intros [= <- <-]. by exists iss.
Qed.

Lemma validate_not_valid c data n r iss n' :
  _parse (schema c) [] data n = (r, iss, n') → isValid r = false →
  validate c data n = (Failure iss, n').
Proof. unfold validate, safeParse. intros ->. by destruct r. Qed.

Lemma validate_valid c data n v iss n' :
  _parse (schema c) [] data n = (OK v, iss, n') →
  validate c data n = (Success v, n').
Proof. unfold validate, safeParse. by intros ->. Qed.

(** A field that is rejected whatever the allocation counter fails the
    entry, with the field's issue among those reported. *)
Lemma validate_field_rejected c id fields k t x :
  c = blog ∨ c = project →
  (k, t) ∈ shape_of c →
  (∀ m, ∃ r i m', _parse t [Key k] (get fields k) m = (r, i, m') ∧
                  isValid r = false ∧ x ∈ i) →
  ∀ n, ∃ issues n',
    validate c (VObject id fields) n = (Failure issues, n') ∧ x ∈ issues.
Proof.
  intros Hc Hin Hfield n.
  destruct (object_not_valid (shape_of c) [] fields k t x Hin Hfield id n)
    as (r & iss & n' & Hrun & Hr & Hx).
  exists iss, n'. split; [|done].
  eapply validate_not_valid; [|exact Hr]. by rewrite schema_shape.
Qed.

Lemma get_None fields k : fields !! k = None → get fields k = VUndefined.
Proof. unfold get. by intros ->. Qed.

Lemma title_declared c :
  c = blog ∨ c = project → ("title", z.string) ∈ shape_of c.
Proof. intros [-> | ->]; solve_elem_of. Qed.

Lemma date_declared c :
  c = blog ∨ c = project → ("date", z.or z.string z.date) ∈ shape_of c.
Proof. intros [-> | ->]; solve_elem_of. Qed.

(** *** Scenarios of the specification *)

(** C1: validating [{title: "Hello", date: "2026-01-15"}] against the
    blog schema succeeds with the record
    [{title: "Hello", date: "2026-01-15", tags: [], draft: false}]:
    title and date unchanged, the defaults applied, and no [description]
    key, so that reading it gives [undefined]. *)
Theorem C1_scenario_A id n :
  validate blog (scenario_A id) n =
    (Success (scenario_A_normalized n (S n)), S (S n)) ∧
  prop (scenario_A_normalized n (S n)) "title" = VString "Hello" ∧
  prop (scenario_A_normalized n (S n)) "date" = VString "2026-01-15" ∧
  prop (scenario_A_normalized n (S n)) "tags" = VArray n [] ∧
  prop (scenario_A_normalized n (S n)) "draft" = VBoolean false ∧
  prop (scenario_A_normalized n (S n)) "description" = VUndefined.
Proof. repeat split; by vm_compute. Qed.

(** C2: an entry without [title] or without [date] is rejected by the
    blog and by the project schema.  No record is produced; the error
    holds the issue zod reports as "Required" at [title], respectively
    the union issue at [date] whose two options both report "Required",
    which is the missing-required-field error of the specification. *)
Theorem C2_missing_required_field c id fields n :
  c = blog ∨ c = project →
  fields !! "title" = None ∨ fields !! "date" = None →
  ∃ issues n',
    validate c (VObject id fields) n = (Failure issues, n') ∧
    (fields !! "title" = None →
       invalid_type PT_string PT_undefined [Key "title"] ∈ issues) ∧
    (fields !! "date" = None →
       invalid_union [[invalid_type PT_string PT_undefined [Key "date"]];
                      [invalid_type PT_date PT_undefined [Key "date"]]]
                     [Key "date"] ∈ issues) ∧
    ∃ i, i ∈ issues ∧ classify i = MissingRequiredField ∧
         (issue_path i = [Key "title"] ∨ issue_path i = [Key "date"]).
Proof.
  intros Hc Hmissing.
  assert (∀ m, fields !! "title" = None → ∃ issues n',
            validate c (VObject id fields) m = (Failure issues, n') ∧
            invalid_type PT_string PT_undefined [Key "title"] ∈ issues) as Htitle.
  { intros m Hnone. eapply validate_field_rejected;
      [done|by apply title_declared|].
    intros m'. rewrite (get_None _ _ Hnone), parse_string. simpl.
    eexists _, _, _. split; [done|]. split; [done|by left]. }
  assert (∀ m, fields !! "date" = None → ∃ issues n',
            validate c (VObject id fields) m = (Failure issues, n') ∧
            invalid_union [[invalid_type PT_string PT_undefined [Key "date"]];
                           [invalid_type PT_date PT_undefined [Key "date"]]]
                          [Key "date"] ∈ issues) as Hdate.
  { intros m Hnone. eapply validate_field_rejected;
      [done|by apply date_declared|].
    intros m'. rewrite (get_None _ _ Hnone), parse_date. simpl.
    eexists _, _, _. split; [done|]. split; [done|by left]. }
  destruct (validate c (VObject id fields) n) as [res n'] eqn:Hrun.
  assert (∃ issues, res = Failure issues) as [issues ->].
  { destruct Hmissing as [H|H];
      [destruct (Htitle n H) as (? & ? & E & _)
      |destruct (Hdate n H) as (? & ? & E & _)];
      rewrite Hrun in E; inversion E; by eexists. }
  assert (fields !! "title" = None →
          invalid_type PT_string PT_undefined [Key "title"] ∈ issues) as Ht.
  { intros H. destruct (Htitle n H) as (? & ? & E & Hx).
    rewrite Hrun in E. by inversion E; subst. }
  assert (fields !! "date" = None →
          invalid_union [[invalid_type PT_string PT_undefined [Key "date"]];
                         [invalid_type PT_date PT_undefined [Key "date"]]]
                        [Key "date"] ∈ issues) as Hd.
  { intros H. destruct (Hdate n H) as (? & ? & E & Hx).
    rewrite Hrun in E. by inversion E; subst. }
  exists issues, n'. repeat split; [done|done|].
  destruct Hmissing as [H|H].
  - eexists. split; [by apply Ht|]. split; [done|by left].
  - eexists. split; [by apply Hd|]. split; [done|by right].
Qed.

Lemma url_declared k :
  k = "url" ∨ k = "repo" → (k, z.optional (z.url z.string)) ∈ shape_of project.
Proof. intros [-> | ->]; solve_elem_of. Qed.


Lemma get_setProperty final k v b :
  k ≠ "__proto__" →
  final !! k = setProperty k v b ∅ !! k → get final k = v.
Proof.
  intros Hk. rewrite lookup_setProperty_eq, lookup_empty, bool_decide_true by done.
  unfold get. intros ->. simpl. destruct v, b; done.
Qed.

Lemma tags_declared c :
  c = blog ∨ c = project →
  ∃ d, d < module_allocations ∧
       ("tags", z.default (z.array z.string) (VArray d [])) ∈ shape_of c.
Proof.
  intros [-> | ->]; [exists 0|exists 1]; (split; [unfold module_allocations; lia|]);
    solve_elem_of.
Qed.


(** The record an accepted entry is normalized to. *)
Lemma validate_success_inv c id fields n out n' :
  c = blog ∨ c = project →
  validate c (VObject id fields) n = (Success out, n') →
  ∃ oid final,
    out = VObject oid final ∧ n ≤ oid ∧ n' = S oid ∧
    (∀ k t, (k, t) ∈ shape_of c →
       ∃ m v i m', n ≤ m ∧ m' ≤ oid ∧
         _parse t [Key k] (get fields k) m = (OK v, i, m') ∧
         final !! k = setProperty k v (has fields k) ∅ !! k) ∧
    (∀ k, k ∉ declared_keys c → final !! k = None).
Proof.
  intros Hc Hrun. apply validate_success in Hrun as [iss Hrun].
  rewrite schema_shape in Hrun by done.
  apply object_valid_inv in Hrun; [|by apply shape_NoDup].
  unfold declared_keys. by rewrite schema_shape.
Qed.



(** *** The [date] field *)

Lemma shape_functional (shape : list (string * ZodType)) k t t' :
  NoDup shape.*1 → (k, t) ∈ shape → (k, t') ∈ shape → t = t'.
Proof.
  induction shape as [|[k0 t0] shape IH]; intros Hnd Hin Hin'.
  - by apply elem_of_nil in Hin.
  - simpl in Hnd. apply NoDup_cons in Hnd as [Hk0 Hnd].
    apply elem_of_cons in Hin as [[= -> ->]|Hin];
      apply elem_of_cons in Hin' as [[= ->]|Hin']; try done.
    + exfalso. apply Hk0. by apply (list_elem_of_fmap_2 fst) in Hin'.
    + exfalso. apply Hk0. by apply (list_elem_of_fmap_2 fst) in Hin.
    + by apply IH.
Qed.

Lemma concerns_unique k k' i :
  [Key k] `prefix_of` issue_path i → concerns k' i → k = k'.
Proof.
  unfold concerns. intros [r ->] [r' Hr']. by inversion Hr'.
Qed.

(** C5 (as the code has it): [date] is accepted as a string or as a valid
    date: validation then reports no issue at [date].  Every other value,
    an absent one and a date with a [NaN] time value included, is
    rejected with an issue at [date]. *)
Theorem C5_date_forms c id fields n :
  c = blog ∨ c = project →
  if date_accepted (get fields "date")
  then Forall (λ i, ¬ concerns "date" i)
         (issues_of (validate c (VObject id fields) n).1)
  else is_success (validate c (VObject id fields) n).1 = false ∧
       ∃ i, i ∈ issues_of (validate c (VObject id fields) n).1 ∧
            concerns "date" i.
Proof.
  intros Hc. destruct (date_accepted (get fields "date")) eqn:Hacc.
  - apply Forall_forall. intros x Hx Hdate.
    unfold validate, safeParse in Hx. rewrite schema_shape in Hx by done.
    destruct (_parse (ZodObject (shape_of c)) [] (VObject id fields) n)
      as [[r iss] n'] eqn:Hrun.
    assert (x ∈ iss) as Hin.
    { destruct r; simpl in Hx; try done. by apply elem_of_nil in Hx. }
    destruct (object_issue _ _ _ _ _ _ _ _ _ Hrun Hin)
      as (k & t & m & r' & i & m' & Hkt & Hp & Hxi).
    pose proof (_parse_respects _ _ _ _ _ _ _ Hp) as [_ Hpre].
    rewrite Forall_forall in Hpre. specialize (Hpre x Hxi).
    pose proof (concerns_unique _ _ _ Hpre Hdate) as ->.
    pose proof (shape_functional _ _ _ _ (shape_NoDup c Hc) Hkt (date_declared c Hc))
      as ->.
    rewrite parse_date in Hp.
    destruct (get fields "date"); try done.
    + inversion Hp; subst. by apply elem_of_nil in Hxi.
    + simpl in Hacc. destruct (PrimFloat.is_nan time); [done|].
      inversion Hp; subst. by apply elem_of_nil in Hxi.
  - destruct (validate_field_rejected c id fields "date" (z.or z.string z.date)
                (match get fields "date" with
                 | VDate _ _ =>
                     invalid_union [[invalid_type PT_string PT_date [Key "date"]];
                                    [invalid_date [Key "date"]]] [Key "date"]
                 | v =>
                     invalid_union
                       [[invalid_type PT_string (getParsedType v) [Key "date"]];
                        [invalid_type PT_date (getParsedType v) [Key "date"]]]
                       [Key "date"]
                 end)) with (n := n)
      as (issues & n' & Hrun & Hx); [done|by apply date_declared| |].
    + intros m. rewrite parse_date.
      destruct (get fields "date"); try done;
        try (eexists _, _, _; split; [done|]; split; [done|by left]).
      simpl in Hacc. destruct (PrimFloat.is_nan time); [|done].
      eexists _, _, _. split; [done|]. split; [done|by left].
    + rewrite Hrun. simpl. split; [done|]. eexists. split; [exact Hx|].
      destruct (get fields "date"); by exists [].
Qed.

(** *** Validating a normalized record again *)

Lemma string_idempotent : idempotent z.string.
Proof.
  intros path v n r i n'. rewrite parse_string.
  destruct (is_string v) eqn:E; [|done]. intros [= <- _ _] m.
  exists v, m. by rewrite parse_string, E.
Qed.

Lemma optional_string_idempotent : idempotent (z.optional z.string).
Proof.
  intros path v n r i n'. rewrite parse_optional_string.
  destruct (is_string v || is_undefined v) eqn:E; [|done]. intros [= <- _ _] m.
  exists v, m. by rewrite parse_optional_string, E.
Qed.

Lemma date_idempotent : idempotent (z.or z.string z.date).
Proof.
  intros path v n r i n'. rewrite parse_date. destruct v; try done.
  - intros [= <- _ _] m. exists (VString s), m. by rewrite parse_date.
  - destruct (PrimFloat.is_nan time) eqn:E; [done|]. intros [= <- _ _] m.
    exists (VDate m time), (S m). by rewrite parse_date, E.
Qed.

Lemma tags_idempotent d :
  idempotent (z.default (z.array z.string) (VArray d [])).
Proof.
  intros path v n r i n' Hp.
  apply parse_tags_valid in Hp as (_ & _ & [[_ ->]|(? & items & _ & Hall & ->)]);
    intros m.
  - exists (VArray m []), (S m). by rewrite parse_tags_strings.
  - exists (VArray m items), (S m). by rewrite parse_tags_strings.
Qed.

Lemma draft_idempotent : idempotent (z.default z.boolean (VBoolean false)).
Proof.
  intros path v n r i n'. rewrite parse_draft. destruct v; try done;
    intros [= <- _ _] m; eexists _, m; by rewrite parse_draft.
Qed.

Lemma url_idempotent : idempotent (z.optional (z.url z.string)).
Proof.
  intros path v n r i n'. rewrite parse_url. destruct v; try done.
  - intros [= <- _ _] m. exists VUndefined, m. by rewrite parse_url.
  - destruct (new_URL s) eqn:E; [|done]. intros [= <- _ _] m.
    exists (VString s), m. by rewrite parse_url, E.
Qed.

Lemma shape_idempotent c :
  c = blog ∨ c = project → Forall (λ kt, idempotent kt.2) (shape_of c).
Proof.
  intros [-> | ->];
    repeat match goal with |- Forall _ _ => constructor end; simpl;
    auto using string_idempotent, optional_string_idempotent, date_idempotent,
      draft_idempotent, url_idempotent;
    apply tags_idempotent.
Qed.

(** An object of idempotent validators is idempotent. *)
Lemma object_idempotent shape :
  NoDup shape.*1 → "__proto__" ∉ shape.*1 →
  Forall (λ kt, idempotent kt.2) shape →
  ∀ path id fields n out iss n',
    _parse (ZodObject shape) path (VObject id fields) n = (OK out, iss, n') →
    ∀ m, ∃ out' m',
      _parse (ZodObject shape) path out m = (OK out', [], m') ∧
      content out' = content out.
Proof.
  intros Hnd Hproto Hidem path id fields n out iss n' Hrun m.
  apply object_valid_inv in Hrun as (oid & final & -> & _ & _ & Hfields & Hother);
    [|done].
  destruct (object_build shape path final (λ k, content (get final k)) Hnd)
    with (id := oid) (n := m) as (oid' & final' & m' & Hrun' & Hin' & Hother').
  { intros k t Hin m0.
    destruct (Hfields k t Hin) as (m1 & v & i & m1' & _ & _ & Hp & Hlook).
    apply get_setProperty in Hlook.
    - rewrite Hlook. rewrite Forall_forall in Hidem.
      apply (Hidem _ Hin _ _ _ _ _ _ Hp m0).
    - intros ->. apply Hproto. by apply (list_elem_of_fmap_2 fst) in Hin. }
  exists (VObject oid' final'), m'. split; [done|]. simpl. f_equal.
  apply map_eq. intros k. rewrite !lookup_fmap.
  destruct (decide (k ∈ shape.*1)) as [Hk|Hk].
  - rewrite (Hin' k Hk), lookup_setProperty_eq, lookup_empty.
    rewrite bool_decide_true by (by intros ->). unfold has, get.
    destruct (final !! k) as [v|]; simpl; [|done].
    by rewrite orb_true_r.
  - by rewrite (Hother' k Hk), (Hother k Hk).
Qed.

Lemma shape_no_proto c :
  c = blog ∨ c = project → "__proto__" ∉ (shape_of c).*1.
Proof. intros [-> | ->]; apply (bool_decide_unpack _); by vm_compute. Qed.

(** C6: validating the normalized record of an accepted entry succeeds
    and yields a deeply equal record. *)
Theorem C6_idempotent c data n out n' :
  c = blog ∨ c = project →
  validate c data n = (Success out, n') →
  ∀ m, ∃ out' m',
    validate c out m = (Success out', m') ∧ content out' = content out.
Proof.
  intros Hc Hrun m. apply validate_success in Hrun as [iss Hrun].
  rewrite schema_shape in Hrun by done.
  destruct data; try done.
  destruct (object_idempotent (shape_of c) (shape_NoDup c Hc) (shape_no_proto c Hc)
              (shape_idempotent c Hc) _ _ _ _ _ _ _ Hrun m)
    as (out' & m' & Hrun' & Hcontent).
  exists out', m'. split; [|done].
  eapply validate_valid. rewrite schema_shape by done. exact Hrun'.
Qed.

(** *** Keys the schema does not declare *)

(** C7: keys that the collection does not declare never cause an error:
    an entry that is accepted is accepted, with the same record, when
    any such keys are added to it. *)
Theorem C7_extra_keys c id fields id' extra n out n' :
  c = blog ∨ c = project →
  (∀ k, k ∈ declared_keys c → extra !! k = None) →
  validate c (VObject id fields) n = (Success out, n') →
  validate c (VObject id' (extra ∪ fields)) n = (Success out, n').
Proof.
  intros Hc Hextra Hrun. rewrite <-Hrun. unfold validate, safeParse.
  rewrite schema_shape by done.
  rewrite (object_ext (shape_of c) [] id' (extra ∪ fields) id fields); [done|].
  intros k Hk. apply lookup_union_r, Hextra.
  unfold declared_keys. by rewrite schema_shape.
Qed.

(** *** Queries *)

Lemma filter_sublist {A} (p : A → bool) (l : list A) :
  List.filter p l `sublist_of` l.
Proof.
  induction l as [|x l IH]; simpl; [constructor|].
  destruct (p x); by constructor.
Qed.

Lemma filter_complement_length {A} (p q : A → bool) (l : list A) :
  Forall (λ x, q x = negb (p x)) l →
  length (List.filter p l) + length (List.filter q l) = length l.
Proof.
  induction 1 as [|x l Hx _ IH]; simpl; [done|].
  rewrite Hx. destruct (p x); simpl; lia.
Qed.

(** C8: a query with a predicate returns exactly the entries of the
    collection that satisfy it, in the order the collection holds them.
    Over five blog entries of which two are drafts, the query
    [draft == false] returns three entries. *)
Theorem C8_query_filters_in_order registry name entries p :
  registry !! name = Some entries →
  (∀ e, e ∈ Query registry name (Some p) ↔ e ∈ entries ∧ p e = true) ∧
  Query registry name (Some p) `sublist_of` entries ∧
  Query registry name None = entries ∧
  (length entries = 5 →
   Forall (λ e, ∃ b, prop (metadata e) "draft" = VBoolean b) entries →
   length (List.filter (draft_is true) entries) = 2 →
   length (Query registry name (Some (draft_is false))) = 3 ∧
   Forall (λ e, prop (metadata e) "draft" = VBoolean false)
     (Query registry name (Some (draft_is false)))).
Proof.
  intros Hreg. unfold Query, getAll. rewrite Hreg. simpl.
  split; [|split; [|split]].
  - intros e. rewrite !list_elem_of_In. apply filter_In.
  - apply filter_sublist.
  - done.
  - intros Hlen Hbool Hdrafts. split.
    + pose proof (filter_complement_length (draft_is false) (draft_is true) entries)
        as Hsum.
      rewrite Hdrafts, Hlen in Hsum. enough (length (List.filter (draft_is false) entries) + 2 = 5) by lia.
      apply Hsum. eapply Forall_impl; [exact Hbool|].
      intros e [b Hb]. unfold draft_is. rewrite Hb. by destruct b.
    + apply Forall_forall. intros e He.
      apply list_elem_of_In, filter_In in He as [_ He].
      unfold draft_is in He. destruct (prop (metadata e) "draft"); try done.
      by apply bool_decide_eq_true in He as ->.
Qed.

(** *** The two versions of the schemas *)

Lemma isValid_with_property k v b r :
  isValid (with_property k v b r) = isValid r.
Proof. destruct r as [|[]|[]]; done. Qed.

(** Adding an optional string key to a shape: for an entry whose value
    at that key is a string or absent, the outcome is the one of the
    shape without the key, with the property added to the record. *)
Lemma optional_string_key_added s1 s2 key path id fields n :
  NoDup (s1 ++ s2).*1 → key ∉ (s1 ++ s2).*1 → key ≠ "__proto__" →
  is_string (get fields key) || is_undefined (get fields key) = true →
  ∃ r iss n',
    _parse (ZodObject (s1 ++ s2)) path (VObject id fields) n = (r, iss, n') ∧
    _parse (ZodObject (s1 ++ ((key, z.optional z.string) :: s2))) path
      (VObject id fields) n =
      (with_property key (get fields key) (has fields key) r, iss, n') ∧
    ∀ out, r = OK out →
      (∀ k, k ≠ key →
         prop (value_of (with_property key (get fields key) (has fields key) r)) k
         = prop out k) ∧
      prop (value_of (with_property key (get fields key) (has fields key) r)) key
      = get fields key.
Proof.
  intros Hnd Hkey Hproto Hv.
  destruct (_parse (ZodObject (s1 ++ s2)) path (VObject id fields) n)
    as [[r iss] n'] eqn:Hrun.
  exists r, iss, n'. split; [done|]. split.
  - rewrite object_insert_key with (v := get fields key).
    + by rewrite Hrun.
    + intros Hin. apply Hkey. rewrite fmap_app. apply elem_of_app. by right.
    + intros m. by rewrite parse_optional_string, Hv.
  - intros out ->.
    apply object_valid_inv in Hrun as (oid & final & -> & _ & _ & _ & Hother);
      [|done].
    simpl. split.
    + intros k Hk. unfold get. by rewrite lookup_setProperty_ne.
    + unfold get at 1.
      rewrite lookup_setProperty_eq, (Hother key Hkey), bool_decide_true by done.
      unfold has, get. destruct (fields !! key) as [v|]; simpl; [|done].
      by rewrite orb_true_r.
Qed.



(** *** What the normalized record holds *)

Lemma optional_string_field c key :
  (c = blog ∧ key = "project") ∨ (c = project ∧ key = "thumbnail") →
  ∃ s1 s2,
    schema c = ZodObject (s1 ++ ((key, z.optional z.string) :: s2)) ∧
    NoDup (s1 ++ s2).*1 ∧ (key ∉ (s1 ++ s2).*1) ∧ key ≠ "__proto__".
Proof.
  intros [(-> & ->)|(-> & ->)].
  - exists (take 4 (shape_of blog)), (drop 5 (shape_of blog)).
    repeat split; try done; apply (bool_decide_unpack _); by vm_compute.
  - exists (take 5 (shape_of project)), (drop 6 (shape_of project)).
    repeat split; try done; apply (bool_decide_unpack _); by vm_compute.
Qed.

(** With a string at an optional string key, the outcome is the one of
    the other keys, and the string is carried into the record. *)
Lemma optional_string_field_run s1 s2 key id fields n s :
  NoDup (s1 ++ s2).*1 → key ∉ (s1 ++ s2).*1 → key ≠ "__proto__" →
  ∃ r iss n',
    _parse (ZodObject (s1 ++ s2)) [] (VObject id fields) n = (r, iss, n') ∧
    _parse (ZodObject (s1 ++ ((key, z.optional z.string) :: s2))) []
      (VObject id (<[key := VString s]> fields)) n =
      (with_property key (VString s) true r, iss, n') ∧
    (∀ out, with_property key (VString s) true r = OK out →
            prop out key = VString s).
Proof.
  intros Hnd Hkey Hproto.
  destruct (optional_string_key_added s1 s2 key [] id
              (<[key := VString s]> fields) n Hnd Hkey Hproto)
    as (r & iss & n' & Hrun & Hrun2 & Hout).
  { unfold get. by rewrite lookup_insert_eq. }
  assert (get (<[key := VString s]> fields) key = VString s) as Hget
    by (unfold get; by rewrite lookup_insert_eq).
  assert (has (<[key := VString s]> fields) key = true) as Hhas
    by (unfold has; rewrite lookup_insert_eq; by apply bool_decide_eq_true).
  rewrite Hget, Hhas in Hrun2, Hout.
  exists r, iss, n'. split; [|split; [done|]].
  - rewrite <-Hrun. apply object_ext. intros k Hk.
    rewrite lookup_insert_ne; [done|]. by intros ->.
  - intros out Hr. destruct r as [|v|v]; [done|by destruct v|].
    destruct (Hout v eq_refl) as [_ Hnew]. rewrite Hr in Hnew. exact Hnew.
Qed.

(** The normalized record of an accepted entry holds declared keys only.
    At [project] (on a blog entry) and [thumbnail] (on a project entry),
    whatever the string, no issue is reported at the field, the string
    is carried into the record, and the outcome does not depend on it. *)
Lemma optional_string_field_any c key id fields n :
  (c = blog ∧ key = "project") ∨ (c = project ∧ key = "thumbnail") →
  (∀ out n',
     validate c (VObject id fields) n = (Success out, n') →
     ∃ oid final,
       out = VObject oid final ∧
       ∀ k, is_Some (final !! k) → k ∈ declared_keys c) ∧
  (∀ s,
     Forall (λ i, ¬ concerns key i)
       (issues_of (validate c (VObject id (<[key := VString s]> fields)) n).1) ∧
     (∀ out,
        (validate c (VObject id (<[key := VString s]> fields)) n).1 = Success out →
        prop out key = VString s) ∧
     (∀ s',
        is_success (validate c (VObject id (<[key := VString s']> fields)) n).1 =
        is_success (validate c (VObject id (<[key := VString s]> fields)) n).1)).
Proof.
  intros Hc. split.
  - intros out n' Hrun.
    assert (c = blog ∨ c = project) as Hc' by (destruct Hc as [[-> _]|[-> _]]; auto).
    destruct (validate_success_inv _ _ _ _ _ _ Hc' Hrun)
      as (oid & final & -> & _ & _ & _ & Hother).
    exists oid, final. split; [done|]. intros k [v Hv].
    destruct (decide (k ∈ declared_keys c)) as [|Hk]; [done|].
    rewrite (Hother k Hk) in Hv. done.
  - destruct (optional_string_field c key Hc) as (s1 & s2 & Hs & Hnd & Hkey & Hproto).
    intros s.
    destruct (optional_string_field_run s1 s2 key id fields n s Hnd Hkey Hproto)
      as (r & iss & n' & Hrun & Hrun2 & Hout).
    unfold validate, safeParse. rewrite Hs, Hrun2. split; [|split].
    + apply Forall_forall. intros x Hx Hconcerns. simpl in Hx.
      assert (x ∈ iss) as Hin.
      { destruct (with_property key (VString s) true r); simpl in Hx; try done.
        by apply elem_of_nil in Hx. }
      destruct (object_issue _ _ _ _ _ _ _ _ _ Hrun Hin)
        as (k & t & m & r' & i & m' & Hkt & Hp & Hxi).
      pose proof (_parse_respects _ _ _ _ _ _ _ Hp) as [_ Hpre].
      rewrite Forall_forall in Hpre. specialize (Hpre x Hxi).
      pose proof (concerns_unique _ _ _ Hpre Hconcerns) as ->.
      apply Hkey. by apply (list_elem_of_fmap_2 fst) in Hkt.
    + intros out Hsuccess. apply Hout. simpl in Hsuccess.
      destruct (with_property key (VString s) true r); by inversion Hsuccess.
    + intros s'.
      destruct (optional_string_field_run s1 s2 key id fields n s' Hnd Hkey Hproto)
        as (r2 & iss2 & n2 & Hrun' & Hrun2' & _).
      rewrite Hrun in Hrun'. inversion Hrun'; subst. rewrite Hrun2'. simpl.
      pose proof (isValid_with_property key (VString s) true r2) as H1.
      pose proof (isValid_with_property key (VString s') true r2) as H2.
      destruct (with_property key (VString s) true r2),
               (with_property key (VString s') true r2), r2; done.
Qed.

(** ** The parser against the reading of the schemas *)

Lemma decides_mapM {A B} (valid : B → bool) (g : A → bool) (f : A → Parser B) l :
  (∀ x, x ∈ l → decides valid (g x) (f x)) →
  ∀ n bs iss n',
    mapM f l n = (bs, iss, n') →
    forallb valid bs = forallb g l ∧ (iss = [] ↔ forallb g l = true).
Proof.
  induction l as [|x l IH]; intros Hf n bs iss n' Hrun.
  - by inversion Hrun.
  - rewrite mapM_cons in Hrun.
    destruct (f x n) as [[b i1] n1] eqn:E1.
    destruct (mapM f l n1) as [[bs' i2] n2] eqn:E2.
    inversion Hrun; subst.
    apply Hf in E1 as [Hb Hi1]; [|by left].
    apply IH in E2 as [Hbs Hi2]; [|intros y Hy; apply Hf; by right].
    simpl. rewrite Hb, Hbs. split; [done|].
    rewrite andb_true_iff, <-Hi1, <-Hi2. split.
    + by intros [-> ->]%app_eq_nil.
    + by intros [-> ->].
Qed.

Lemma string_checks_run checks path s dirty n :
  ∃ iss,
    string_checks checks path s dirty n =
      (dirty || negb (forallb (check_passes s) checks), iss, n) ∧
    (iss = [] ↔ forallb (check_passes s) checks = true).
Proof.
  revert dirty. induction checks as [|[] checks IH]; intros dirty.
  - exists []. simpl. by rewrite orb_false_r.
  - simpl. destruct (new_URL s) eqn:E.
    + apply IH.
    + destruct (IH true) as (iss & Hrun & _). unfold_parser. rewrite Hrun.
      eexists. split; [by rewrite orb_true_r|]. split; intros; done.
Qed.

Lemma mergeItems_valid results dirty acc :
  match mergeItems results dirty acc with
  | Some (false, _) => true
  | _ => false
  end = negb dirty && forallb isValid results.
Proof.
  revert dirty acc. induction results as [|[|v|v] results IH]; intros dirty acc; simpl.
  - destruct dirty; done.
  - by rewrite andb_false_r.
  - rewrite IH. simpl. by rewrite andb_false_r.
  - by rewrite IH.
Qed.

Lemma mergePairs_valid_iff (pairs : list ObjectPair) dirty final :
  match mergePairs pairs dirty final with
  | Some (false, _) => true
  | _ => false
  end = negb dirty && forallb (λ p : ObjectPair, isValid p.1.2) pairs.
Proof.
  revert dirty final.
  induction pairs as [|[[k [|v|v]] b] pairs IH]; intros dirty final; simpl.
  - destruct dirty; done.
  - by rewrite andb_false_r.
  - rewrite IH. simpl. by rewrite andb_false_r.
  - by rewrite IH.
Qed.

Lemma decides_union_sync path (g : ZodType → bool) data options dirty issues :
  Forall (λ o, decides isValid (g o) (_parse o path data)) options →
  (∀ r di, dirty = Some (r, di) → isValid r = false ∧ di ≠ []) →
  decides isValid (existsb g options)
    (union_sync path (map (λ o, _parse o path data) options) dirty issues).
Proof.
  intros Hopts. revert dirty issues.
  induction Hopts as [|o options Ho Hopts IH]; intros dirty issues Hd n r iss n' Hrun.
  - simpl in Hrun. destruct dirty as [[r0 di]|]; unfold_parser;
      inversion Hrun; subst.
    + destruct (Hd _ _ eq_refl) as [? ?]. rewrite app_nil_r. split; [done|].
      split; intros; done.
    + split; [done|]. split; intros; done.
  - simpl in Hrun.
    apply bind_inv in Hrun as ([r0 ci] & i1 & n1 & i2 & E1 & E2 & ->).
    unfold childCtx in E1.
    destruct (_parse o path data n) as [[r' ci'] n1'] eqn:Eo.
    inversion E1; subst. apply Ho in Eo as [Hvalid Hci]. simpl.
    destruct r0 as [|v|v]; simpl in Hvalid; rewrite <-Hvalid; simpl.
    + apply IH in E2; [done|done].
    + apply IH in E2; [done|].
      intros rd di Hsome. destruct dirty as [[r1 d1]|].
      * by apply Hd.
      * inversion Hsome; subst. split; [done|].
        intros ->. rewrite <-Hvalid in Hci. destruct Hci as [Hci _].
        by specialize (Hci eq_refl).
    + inversion E2; subst. done.
Qed.

Lemma forallb_imap_snd {A} (p : A → bool) (l : list A) :
  forallb (λ x : nat * A, p x.2) (imap pair l) = forallb p l.
Proof.
  change (imap pair l) with (imap (λ i x, (id i, x)) l). generalize (@id nat).
  induction l as [|x l IH]; intros g; [done|].
  simpl. f_equal. apply (IH (g ∘ S)).
Qed.

(** The parser is valid exactly on the values the schema describes, and
    reports an issue exactly when it is not valid. *)
Lemma _parse_decides t :
  ∀ path data, decides isValid (accepts t data) (_parse t path data).
Proof.
  induction t as [checks| | |e IH|t IH|t d IH|options IH|shape IH]
    using ZodType_nested_ind; intros path data.
  - destruct data; simpl; try (intros ? ? ? ? [= <- <- <-]; by split).
    intros n res iss n' Hrun.
    destruct (string_checks_run checks path s false n) as (iss0 & Hchecks & Hiss).
    unfold_parser. rewrite Hchecks in Hrun. inversion Hrun; subst.
    rewrite app_nil_r. split; [|done]. simpl.
    by destruct (forallb (check_passes s) checks).
  - destruct data; simpl; intros ? ? ? ? [= <- <- <-]; by split.
  - destruct data; simpl; try destruct (PrimFloat.is_nan time);
      intros ? ? ? ? [= <- <- <-]; by split.
  - destruct data; simpl; try (intros ? ? ? ? [= <- <- <-]; by split).
    intros n res iss n' Hrun.
    apply bind_inv in Hrun as (rs & i1 & n1 & i2 & E1 & E2 & ->).
    unfold mergeArray in E2. unfold_parser. inversion E2; subst.
    rewrite app_nil_r.
    apply (decides_mapM isValid (λ x : nat * value, accepts e x.2)) in E1 as [Hrs Hi1].
    + assert (forallb (λ x : nat * value, accepts e x.2) (imap pair items)
              = forallb (accepts e) items) as Himap.
      { apply forallb_imap_snd. }
      rewrite Himap in Hrs, Hi1. split; [|done].
      pose proof (mergeItems_valid rs false []) as Hm. simpl in Hm.
      rewrite Hrs in Hm.
      destruct (mergeItems rs false []) as [[[] a]|]; simpl; done.
    + intros [i item] _. simpl. apply IH.
  - destruct data; simpl; try apply IH.
    intros ? ? ? ? [= <- <- <-]. by split.
  - simpl. apply IH.
  - apply (decides_union_sync path (λ o, accepts o data)); [|done].
    eapply Forall_impl; [exact IH|]. intros o Ho. apply Ho.
  - destruct data; try (simpl; intros ? ? ? ? [= <- <- <-]; by split).
    intros n res iss n' Hrun. rewrite _parse_object in Hrun. simpl accepts.
    destruct (mapM (parse_property path fields) shape n) as [[pairs i1] n1] eqn:E1.
    inversion Hrun; subst.
    apply (decides_mapM (λ p : ObjectPair, isValid p.1.2)
             (λ kt : string * ZodType, accepts kt.2 (get fields kt.1))) in E1
      as [Hps Hi1].
    + assert (forallb (λ kt : string * ZodType, accepts kt.2 (get fields kt.1)) shape
              = forallb (λ '(key, keyValidator), accepts keyValidator (get fields key))
                  shape) as Hshape.
      { clear. induction shape as [|[k t] shape IHs]; [done|]. simpl. by f_equal. }
      rewrite Hshape in Hps, Hi1. split; [|done].
      pose proof (mergePairs_valid_iff pairs false ∅) as Hm. simpl in Hm.
      rewrite Hps in Hm.
      destruct (mergePairs pairs false ∅) as [[[] a]|]; simpl; done.
    + intros [k t] Hin m p issk m' Hp. simpl.
      rewrite Forall_forall in IH. specialize (IH _ Hin). simpl in IH.
      unfold parse_property in Hp. unfold_parser.
      destruct (_parse t (path ++ [Key k]) (get fields k) m) as [[r j] m1] eqn:F.
      inversion Hp; subst. apply IH in F as [? ?]. rewrite app_nil_r. by split.
Qed.

Lemma safeParse_is_success t data n :
  is_success (safeParse t data n).1 = accepts t data.
Proof.
  unfold safeParse. destruct (_parse t [] data n) as [[r iss] n'] eqn:Hrun.
  apply _parse_decides in Hrun as [<- _]. by destruct r.
Qed.

(** The issues a validation reports are those the parse emitted: a
    valid parse emitted none. *)
Lemma safeParse_issues t data n :
  issues_of (safeParse t data n).1 = (_parse t [] data n).1.2.
Proof.
  unfold safeParse. destruct (_parse t [] data n) as [[r iss] n'] eqn:Hrun.
  apply _parse_decides in Hrun as [Hvalid Hiss]. simpl.
  destruct r; try done. simpl in Hvalid. symmetry. by apply Hiss.
Qed.

(** ** The normalized record holds declared keys only *)

Lemma accepts_object_agree shape id fields id' fields' :
  (∀ k t, (k, t) ∈ shape → accepts t (get fields k) = accepts t (get fields' k)) →
  accepts (ZodObject shape) (VObject id fields) =
  accepts (ZodObject shape) (VObject id' fields').
Proof.
  simpl. induction shape as [|[k t] shape IH]; intros Hagree; [done|].
  simpl. rewrite (Hagree k t) by left. f_equal. apply IH.
  intros k' t' Hin. apply Hagree. by right.
Qed.

(** Whether a record with a string at an optional string key is
    described by the schema is decided by its other fields. *)
Lemma accepts_any_string c key id fields s :
  (c = blog ∧ key = "project") ∨ (c = project ∧ key = "thumbnail") →
  accepts (schema c) (VObject id (<[key := VString s]> fields)) =
  accepts (schema c) (VObject id (delete key fields)).
Proof.
  intros Hc.
  destruct (optional_string_field c key Hc) as (s1 & s2 & Hs & Hnd & Hkey & Hproto).
  rewrite Hs. apply accepts_object_agree. intros k t Hin.
  assert ((k, t) = (key, z.optional z.string) ∨ k ≠ key) as [[= -> ->]|Hne].
  { apply elem_of_app in Hin as [Hin|Hin];
      [|apply elem_of_cons in Hin as [Hin|Hin]; [by left|]];
      right; intros ->; apply Hkey; rewrite fmap_app, elem_of_app;
      [left|right]; by apply (list_elem_of_fmap_2 fst) in Hin. }
  - unfold get. by rewrite lookup_insert_eq, lookup_delete_eq.
  - unfold get. by rewrite lookup_insert_ne, lookup_delete_ne.
Qed.

(** C10: the normalized record holds declared keys only.  An entry whose
    declared fields are as the schema describes them is accepted
    whatever other keys it has, and none of those keys is in the
    record.  [project] (on a blog entry) and [thumbnail] (on a project
    entry) take any string: with any string there, the entry is accepted
    exactly when its other fields are as the schema describes them, no
    issue is reported at the field, and the string is carried into the
    record unchanged. *)
Theorem C10_only_declared_fields c key id fields n :
  (c = blog ∧ key = "project") ∨ (c = project ∧ key = "thumbnail") →
  (accepts (schema c) (VObject id fields) = true →
     ∃ oid final n',
       validate c (VObject id fields) n = (Success (VObject oid final), n') ∧
       (∀ k, is_Some (final !! k) → k ∈ declared_keys c) ∧
       (∀ k, k ∉ declared_keys c → final !! k = None)) ∧
  (∀ out n',
     validate c (VObject id fields) n = (Success out, n') →
     ∃ oid final,
       out = VObject oid final ∧
       ∀ k, is_Some (final !! k) → k ∈ declared_keys c) ∧
  (∀ s,
     is_success (validate c (VObject id (<[key := VString s]> fields)) n).1 =
       accepts (schema c) (VObject id (delete key fields)) ∧
     (accepts (schema c) (VObject id (delete key fields)) = true →
        ∃ oid final n',
          validate c (VObject id (<[key := VString s]> fields)) n =
            (Success (VObject oid final), n') ∧
          final !! key = Some (VString s)) ∧
     Forall (λ i, ¬ concerns key i)
       (issues_of (validate c (VObject id (<[key := VString s]> fields)) n).1) ∧
     (∀ out,
        (validate c (VObject id (<[key := VString s]> fields)) n).1 = Success out →
        prop out key = VString s) ∧
     (∀ s',
        is_success (validate c (VObject id (<[key := VString s']> fields)) n).1 =
        is_success (validate c (VObject id (<[key := VString s]> fields)) n).1)).
Proof.
  intros Hc.
  assert (c = blog ∨ c = project) as Hc' by (destruct Hc as [[-> _]|[-> _]]; auto).
  destruct (optional_string_field_any c key id fields n Hc) as [Hkeys Hany].
  assert (∀ fields0,
            accepts (schema c) (VObject id fields0) = true →
            ∃ oid final n',
              validate c (VObject id fields0) n = (Success (VObject oid final), n') ∧
              ∀ k, k ∉ declared_keys c → final !! k = None) as Haccepted.
  { intros fields0 Hacc.
    pose proof (safeParse_is_success (schema c) (VObject id fields0) n) as Hs.
    rewrite Hacc in Hs. fold (validate c (VObject id fields0) n) in Hs.
    destruct (validate c (VObject id fields0) n) as [[out|error] n'] eqn:Hrun; [|done].
    destruct (validate_success_inv _ _ _ _ _ _ Hc' Hrun)
      as (oid & final & -> & _ & _ & _ & Hother).
    by exists oid, final, n'. }
  split; [|split].
  - intros Hacc. destruct (Haccepted fields Hacc) as (oid & final & n' & Hrun & Hother).
    exists oid, final, n'. split; [done|]. split; [|done].
    intros k [v Hv]. destruct (decide (k ∈ declared_keys c)) as [|Hk]; [done|].
    by rewrite (Hother k Hk) in Hv.
  - exact Hkeys.
  - intros s. destruct (Hany s) as (Hissues & Hcarried & Hsame).
    assert (is_success (validate c (VObject id (<[key := VString s]> fields)) n).1 =
            accepts (schema c) (VObject id (delete key fields))) as Heq.
    { unfold validate. rewrite safeParse_is_success. by apply accepts_any_string. }
    split; [exact Heq|]. split; [|split; [exact Hissues|split; [exact Hcarried|exact Hsame]]].
    intros Hacc. rewrite <-(accepts_any_string c key id fields s Hc) in Hacc.
    destruct (Haccepted _ Hacc) as (oid & final & n' & Hrun & _).
    exists oid, final, n'. split; [done|].
    specialize (Hcarried (VObject oid final)). rewrite Hrun in Hcarried.
    specialize (Hcarried eq_refl). simpl in Hcarried. unfold get in Hcarried.
    by destruct (final !! key) as [v|]; simpl in Hcarried; subst.
Qed.

(** X1: for every schema written with the combinators of the module,
    [safeParse] succeeds exactly on the values the schema describes
    ([accepts]), whatever was allocated before. *)
Theorem X1_safeParse_succeeds_iff_described t data n :
  is_success (safeParse t data n).1 = accepts t data.
Proof. apply safeParse_is_success. Qed.

(** X2: a validation that fails always reports at least one issue. *)
Theorem X2_failure_reports_an_issue t data n issues n' :
  safeParse t data n = (Failure issues, n') → issues ≠ [].
Proof.
  intros Hrun Hnil. pose proof (safeParse_is_success t data n) as Hs.
  pose proof (safeParse_issues t data n) as Hi. rewrite Hrun in Hs, Hi. simpl in *.
  destruct (_parse t [] data n) as [[r iss] m] eqn:Hp.
  apply _parse_decides in Hp as [_ Hiss]. simpl in Hi. subst.
  rewrite <-Hs in Hiss. by destruct Hiss as [Hiss _]; specialize (Hiss eq_refl).
Qed.

Lemma accepts_string v : accepts z.string v = is_string v.
Proof. by destruct v. Qed.

Lemma accepts_optional_string v :
  accepts (z.optional z.string) v = optional_string_ok v.
Proof. by destruct v. Qed.

Lemma accepts_date v : accepts (z.or z.string z.date) v = date_accepted v.
Proof. destruct v; simpl; try done. by rewrite orb_false_r. Qed.

Lemma accepts_tags d v :
  accepts (z.default (z.array z.string) (VArray d [])) v = tags_ok v.
Proof.
  destruct v; simpl; done.
Qed.

Lemma accepts_draft v : accepts (z.default z.boolean (VBoolean false)) v = draft_ok v.
Proof. by destruct v. Qed.

Lemma accepts_url v : accepts (z.optional (z.url z.string)) v = url_ok v.
Proof. destruct v; simpl; try done. by rewrite andb_true_r. Qed.

(** X3: the blog schema accepts exactly the records whose [title] is a
    string, [description] and [project] are strings or absent, [date]
    is a string or a valid date, [tags] is absent or an array of
    strings, and [draft] is absent or a boolean; anything that is not a
    record is rejected. *)
Theorem X3_blog_accepts data n :
  is_success (validate blog data n).1 =
  match data with
  | VObject _ fields =>
      is_string (get fields "title") &&
      optional_string_ok (get fields "description") &&
      date_accepted (get fields "date") &&
      tags_ok (get fields "tags") &&
      optional_string_ok (get fields "project") &&
      draft_ok (get fields "draft")
  | _ => false
  end.
Proof.
  unfold validate. rewrite safeParse_is_success. destruct data; try done.
  change (accepts (schema blog) (VObject id fields)) with
    (accepts z.string (get fields "title") &&
     (accepts (z.optional z.string) (get fields "description") &&
     (accepts (z.or z.string z.date) (get fields "date") &&
     (accepts (z.default (z.array z.string) (VArray 0 [])) (get fields "tags") &&
     (accepts (z.optional z.string) (get fields "project") &&
     (accepts (z.default z.boolean (VBoolean false)) (get fields "draft") && true)))))).
  rewrite accepts_string, !accepts_optional_string, accepts_date, accepts_tags,
    accepts_draft, andb_true_r, !andb_assoc. done.
Qed.

(** X4: the project schema accepts exactly the records whose [title] is
    a string, [description] and [thumbnail] are strings or absent,
    [date] is a string or a valid date, [url] and [repo] are absent or
    strings the URL constructor takes, [tags] is absent or an array of
    strings, and [draft] is absent or a boolean. *)
Theorem X4_project_accepts data n :
  is_success (validate project data n).1 =
  match data with
  | VObject _ fields =>
      is_string (get fields "title") &&
      optional_string_ok (get fields "description") &&
      date_accepted (get fields "date") &&
      url_ok (get fields "url") &&
      url_ok (get fields "repo") &&
      optional_string_ok (get fields "thumbnail") &&
      tags_ok (get fields "tags") &&
      draft_ok (get fields "draft")
  | _ => false
  end.
Proof.
  unfold validate. rewrite safeParse_is_success. destruct data; try done.
  change (accepts (schema project) (VObject id fields)) with
    (accepts z.string (get fields "title") &&
     (accepts (z.optional z.string) (get fields "description") &&
     (accepts (z.or z.string z.date) (get fields "date") &&
     (accepts (z.optional (z.url z.string)) (get fields "url") &&
     (accepts (z.optional (z.url z.string)) (get fields "repo") &&
     (accepts (z.optional z.string) (get fields "thumbnail") &&
     (accepts (z.default (z.array z.string) (VArray 1 [])) (get fields "tags") &&
     (accepts (z.default z.boolean (VBoolean false)) (get fields "draft")
      && true)))))))).
  rewrite accepts_string, !accepts_optional_string, accepts_date, !accepts_url,
    accepts_tags, accepts_draft, andb_true_r, !andb_assoc. done.
Qed.

Lemma prefix_snoc_unique {A} (p q : list A) x y :
  (p ++ [x]) `prefix_of` q → (p ++ [y]) `prefix_of` q → x = y.
Proof.
  intros [r ->] [r' Hr']. rewrite <-!app_assoc in Hr'.
  apply app_inv_head in Hr'. by inversion Hr'.
Qed.

(** Within an object, the issues below a key are there exactly when the
    validator of the key does not accept the property. *)
Lemma object_issue_at_key shape path id fields n k t :
  NoDup shape.*1 → (k, t) ∈ shape →
  (∃ x, x ∈ (_parse (ZodObject shape) path (VObject id fields) n).1.2 ∧
        (path ++ [Key k]) `prefix_of` issue_path x) ↔
  accepts t (get fields k) = false.
Proof.
  intros Hnd Hin.
  destruct (_parse (ZodObject shape) path (VObject id fields) n)
    as [[r iss] n'] eqn:Hrun. simpl. split.
  - intros (x & Hx & Hpre).
    destruct (object_issue _ _ _ _ _ _ _ _ _ Hrun Hx)
      as (k' & t' & m & r' & i & m' & Hkt & Hp & Hxi).
    pose proof (_parse_respects _ _ _ _ _ _ _ Hp) as [_ Hpre'].
    rewrite Forall_forall in Hpre'. specialize (Hpre' x Hxi).
    pose proof (prefix_snoc_unique _ _ _ _ Hpre' Hpre) as [= ->].
    pose proof (shape_functional _ _ _ _ Hnd Hkt Hin) as ->.
    apply _parse_decides in Hp as [_ Hiss].
    destruct (accepts t (get fields k)); [|done].
    destruct Hiss as [_ Hiss]. rewrite Hiss in Hxi by done. by apply elem_of_nil in Hxi.
  - intros Hacc. rewrite _parse_object in Hrun.
    destruct (mapM (parse_property path fields) shape n) as [[pairs iss'] n1] eqn:E.
    apply mapM_properties_run in E. inversion Hrun; subst.
    destruct (run_field _ _ _ _ _ _ _ E Hin) as (m & r' & i & m' & _ & _ & Hp & _ & Hsub).
    pose proof (_parse_respects _ _ _ _ _ _ _ Hp) as [_ Hpre].
    apply _parse_decides in Hp as [_ Hiss]. rewrite Hacc in Hiss.
    destruct i as [|x i]; [by destruct Hiss as [Hiss _]; specialize (Hiss eq_refl)|].
    exists x. split; [apply Hsub; by left|]. by inversion Hpre.
Qed.

(** X5: validation reports every field that is wrong, not only the
    first: the error holds an issue at a declared field exactly when the
    validator of that field does not accept the value the entry has
    there. *)
Theorem X5_issue_at_field_iff_not_accepted c k t id fields n :
  c = blog ∨ c = project →
  (k, t) ∈ shape_of c →
  (∃ i, i ∈ issues_of (validate c (VObject id fields) n).1 ∧ concerns k i) ↔
  accepts t (get fields k) = false.
Proof.
  intros Hc Hin. unfold validate. rewrite safeParse_issues, schema_shape by done.
  apply (object_issue_at_key (shape_of c) [] id fields n k t);
    [by apply shape_NoDup|done].
Qed.

(** X6: every issue of a rejected record is at or below a key the
    collection declares. *)
Theorem X6_issues_at_declared_keys c id fields n i :
  c = blog ∨ c = project →
  i ∈ issues_of (validate c (VObject id fields) n).1 →
  ∃ k, k ∈ declared_keys c ∧ concerns k i.
Proof.
  intros Hc. unfold validate, declared_keys.
  rewrite safeParse_issues, schema_shape by done.
  destruct (_parse (ZodObject (shape_of c)) [] (VObject id fields) n)
    as [[r iss] n'] eqn:Hrun. simpl. intros Hi.
  destruct (object_issue _ _ _ _ _ _ _ _ _ Hrun Hi)
    as (k & t & m & r' & j & m' & Hkt & Hp & Hij).
  pose proof (_parse_respects _ _ _ _ _ _ _ Hp) as [_ Hpre].
  rewrite Forall_forall in Hpre. exists k. split.
  - by apply (list_elem_of_fmap_2 fst) in Hkt.
  - by apply Hpre.
Qed.

(** X7: front-matter that is not a record (a list, a scalar, nothing)
    is rejected with the single issue "expected object" at the root, and
    nothing is allocated. *)
Theorem X7_not_a_record c data n :
  c = blog ∨ c = project →
  getParsedType data ≠ PT_object →
  validate c data n =
    (Failure [invalid_type PT_object (getParsedType data) []], n).
Proof. intros [-> | ->] Hdata; by destruct data. Qed.

(** ** The normalized record, field by field *)

(** The property of the normalized record at a declared key: the value
    its validator returned, left out when that value is [undefined] and
    the entry does not have the key. *)
Lemma field_of_normalized c id fields n out n' k t :
  c = blog ∨ c = project →
  validate c (VObject id fields) n = (Success out, n') →
  (k, t) ∈ shape_of c →
  ∃ oid final m v i m',
    out = VObject oid final ∧ n' = S oid ∧ n ≤ m ∧ m' ≤ oid ∧
    _parse t [Key k] (get fields k) m = (OK v, i, m') ∧
    final !! k = if negb (is_undefined v) || has fields k then Some v else None.
Proof.
  intros Hc Hrun Hin.
  destruct (validate_success_inv _ _ _ _ _ _ Hc Hrun)
    as (oid & final & -> & Hn & -> & Hfields & _).
  destruct (Hfields _ _ Hin) as (m & v & i & m' & ? & ? & Hp & Hlook).
  exists oid, final, m, v, i, m'. repeat split; try done.
  rewrite Hlook, lookup_setProperty_eq, lookup_empty, bool_decide_true; [done|].
  intros ->. apply (shape_no_proto c Hc). by apply (list_elem_of_fmap_2 fst) in Hin.
Qed.

(** What the validators of the fields return when they accept. *)
Lemma field_result c k t path v n r i n' :
  c = blog ∨ c = project →
  (k, t) ∈ shape_of c →
  _parse t path v n = (OK r, i, n') →
  is_undefined r = (is_optional t && is_undefined v) ∧
  (is_undefined v = false → content r = content v) ∧
  (∀ a, has_identity a r → n ≤ a ∧ a < n').
Proof.
  intros Hc Hin Hp.
  assert (t = z.string ∨ t = z.optional z.string ∨ t = z.or z.string z.date ∨
          (∃ d, t = z.default (z.array z.string) (VArray d [])) ∨
          t = z.default z.boolean (VBoolean false) ∨
          t = z.optional (z.url z.string)) as Ht.
  { destruct Hc as [-> | ->]; simpl in Hin;
      repeat (apply elem_of_cons in Hin as [[= -> ->]|Hin]; [eauto 10|]);
      by apply elem_of_nil in Hin. }
  destruct Ht as [-> | [-> | [-> | [[d ->] | [-> | ->]]]]].
  - rewrite parse_string in Hp. destruct v; try done. inversion Hp; subst.
    split; [done|]. split; [done|]. intros a Ha. inversion Ha.
  - rewrite parse_optional_string in Hp. destruct v; try done; inversion Hp; subst;
      (split; [done|]); (split; [done|]); intros a Ha; inversion Ha.
  - rewrite parse_date in Hp. destruct v; try done.
    + inversion Hp; subst. split; [done|]. split; [done|]. intros a Ha. inversion Ha.
    + destruct (PrimFloat.is_nan time); [done|]. inversion Hp; subst.
      split; [done|]. split; [done|]. intros a Ha. inversion Ha. lia.
  - apply parse_tags_valid in Hp as (_ & -> & [[-> ->]|(tid & items & -> & Hall & ->)]).
    + split; [done|]. split; [done|]. intros a Ha.
      inversion Ha as [|?| |? ? item Hitem ?|]; subst; [lia|].
      by apply elem_of_nil in Hitem.
    + split; [done|]. split; [intros _; simpl; by rewrite content_strings|].
      intros a Ha. inversion Ha as [|?| |? ? item Hitem Hid|]; subst; [lia|].
      rewrite forallb_forall in Hall. apply list_elem_of_In, Hall in Hitem.
      destruct item; try done. inversion Hid.
  - rewrite parse_draft in Hp. destruct v; try done; inversion Hp; subst;
      (split; [done|]); (split; [done|]); intros a Ha; inversion Ha.
  - rewrite parse_url in Hp. destruct v; try done.
    + inversion Hp; subst. split; [done|]. split; [done|]. intros a Ha. inversion Ha.
    + destruct (new_URL s); [|done]. inversion Hp; subst.
      split; [done|]. split; [done|]. intros a Ha. inversion Ha.
Qed.

(** X8: the keys of the normalized record are the declared keys that are
    not optional ([title], [date], [tags], [draft]), together with the
    optional ones the entry has. *)
Theorem X8_keys_of_normalized_record c id fields n oid final n' k :
  c = blog ∨ c = project →
  validate c (VObject id fields) n = (Success (VObject oid final), n') →
  is_Some (final !! k) ↔
  ∃ t, (k, t) ∈ shape_of c ∧ (is_optional t = false ∨ is_Some (fields !! k)).
Proof.
  intros Hc Hrun. split.
  - intros Hsome.
    destruct (decide (k ∈ declared_keys c)) as [Hk|Hk].
    + unfold declared_keys in Hk. rewrite schema_shape in Hk by done.
      apply list_elem_of_fmap in Hk as ([k' t] & -> & Hin). simpl in *.
      exists t. split; [done|].
      destruct (field_of_normalized _ _ _ _ _ _ _ _ Hc Hrun Hin)
        as (oid' & final' & m & v & i & m' & [= <- <-] & _ & _ & _ & Hp & Hlook).
      destruct (field_result _ _ _ _ _ _ _ _ _ Hc Hin Hp) as (Hundef & _ & _).
      rewrite Hlook in Hsome. unfold has in Hsome.
      destruct (is_optional t); [|by left]. right.
      destruct (fields !! k') as [w|] eqn:Hw; [done|]. exfalso.
      rewrite (get_None _ _ Hw) in Hundef. simpl in Hundef. rewrite Hundef in Hsome.
      rewrite bool_decide_false in Hsome by (by intros [? ?]).
      simpl in Hsome. by destruct Hsome.
    + destruct (validate_success_inv _ _ _ _ _ _ Hc Hrun)
        as (oid' & final' & [= <- <-] & _ & _ & _ & Hother).
      rewrite (Hother k Hk) in Hsome. by destruct Hsome.
  - intros (t & Hin & Hpresent).
    destruct (field_of_normalized _ _ _ _ _ _ _ _ Hc Hrun Hin)
      as (oid' & final' & m & v & i & m' & [= <- <-] & _ & _ & _ & Hp & Hlook).
    destruct (field_result _ _ _ _ _ _ _ _ _ Hc Hin Hp) as (Hundef & _ & _).
    rewrite Hlook. destruct Hpresent as [Hreq|Hhas].
    + rewrite Hreq in Hundef. simpl in Hundef. by rewrite Hundef.
    + unfold has. rewrite bool_decide_true by done. by rewrite orb_true_r.
Qed.

(** X9: validation hands on what the entry provides: at every declared
    key where the entry has a value, the normalized record has a deeply
    equal value (nothing is trimmed, converted or reordered). *)
Theorem X9_provided_values_unchanged c id fields n out n' k :
  c = blog ∨ c = project →
  validate c (VObject id fields) n = (Success out, n') →
  k ∈ declared_keys c →
  is_undefined (get fields k) = false →
  content (prop out k) = content (get fields k).
Proof.
  intros Hc Hrun Hk Hdef.
  unfold declared_keys in Hk. rewrite schema_shape in Hk by done.
  apply list_elem_of_fmap in Hk as ([k' t] & -> & Hin). simpl in *.
  destruct (field_of_normalized _ _ _ _ _ _ _ _ Hc Hrun Hin)
    as (oid & final & m & v & i & m' & -> & _ & _ & _ & Hp & Hlook).
  destruct (field_result _ _ _ _ _ _ _ _ _ Hc Hin Hp) as (Hundef & Hcontent & _).
  rewrite Hdef, andb_false_r in Hundef. rewrite Hundef in Hlook. simpl in Hlook.
  simpl. unfold get at 1. rewrite Hlook. simpl. by apply Hcontent.
Qed.

(** X10: every object of the normalized record (the record, its [tags]
    array, its [date] when it is a date) is allocated by the validation:
    the record shares no array, date or object with the entry it was
    made from, nor with anything that existed before. *)
Theorem X10_normalized_record_is_new c id fields n out n' a :
  c = blog ∨ c = project →
  validate c (VObject id fields) n = (Success out, n') →
  has_identity a out →
  n ≤ a ∧ a < n'.
Proof.
  intros Hc Hrun Ha.
  destruct (validate_success_inv _ _ _ _ _ _ Hc Hrun)
    as (oid & final & -> & Hn & -> & _ & Hother).
  inversion Ha as [| |f|?|id' f key v Hlook Hv]; subst; [lia|].
  destruct (decide (key ∈ declared_keys c)) as [Hk|Hk].
  - unfold declared_keys in Hk. rewrite schema_shape in Hk by done.
    apply list_elem_of_fmap in Hk as ([k' t] & -> & Hin). simpl in *.
    destruct (field_of_normalized _ _ _ _ _ _ _ _ Hc Hrun Hin)
      as (oid' & final' & m & v' & i & m' & [= <- <-] & _ & ? & ? & Hp & Hlook').
    rewrite Hlook in Hlook'. destruct (negb (is_undefined v') || has fields k');
      [|done]. inversion Hlook'; subst.
    destruct (field_result _ _ _ _ _ _ _ _ _ Hc Hin Hp) as (_ & _ & Hfresh).
    destruct (Hfresh a Hv). lia.
  - by rewrite (Hother key Hk) in Hlook.
Qed.

(** ** Items of [tags] that are not strings *)

Lemma item_issues_cons path g x items :
  item_issues path g (x :: items) =
  (if is_string x then []
   else [invalid_type PT_string (getParsedType x) (path ++ [Index (g 0)])])
  ++ item_issues path (g ∘ S) items.
Proof. done. Qed.

Lemma elem_of_item_issues path g items y :
  y ∈ item_issues path g items ↔
  ∃ j x, items !! j = Some x ∧ is_string x = false ∧
         y = invalid_type PT_string (getParsedType x) (path ++ [Index (g j)]).
Proof.
  revert g. induction items as [|x0 items IH]; intros g.
  - split; [by intros ?%elem_of_nil|by intros (j & x & ? & _)].
  - rewrite item_issues_cons, elem_of_app, IH. split.
    + intros [Hy|(j & x & Hj & Hx & ->)].
      * destruct (is_string x0) eqn:E; [by apply elem_of_nil in Hy|].
        apply list_elem_of_singleton in Hy as ->. by exists 0, x0.
      * by exists (S j), x.
    + intros ([|j] & x & Hj & Hx & ->).
      * left. inversion Hj; subst. rewrite Hx. by left.
      * right. by exists j, x.
Qed.

Lemma parse_string_items_issues path (g : nat → nat) items n :
  mapM (λ '(i, item), _parse z.string (path ++ [Index i]) item)
       (imap (λ i x, (g i, x)) items) n =
  (item_result <$> items, item_issues path g items, n).
Proof.
  revert g. induction items as [|x items IH]; intros g; [done|].
  simpl imap. rewrite mapM_cons, parse_string, fmap_cons, item_issues_cons.
  unfold item_result at 1.
  change (imap ((λ i x0, (g i, x0)) ∘ S) items)
    with (imap (λ i x0, ((g ∘ S) i, x0)) items).
  destruct (is_string x); by rewrite (IH (g ∘ S)).
Qed.

Lemma parse_tags_array d path id items n :
  _parse (z.default (z.array z.string) (VArray d [])) path (VArray id items) n =
  (if forallb is_string items then OK (VArray n items) else INVALID,
   item_issues path (λ i, i) items, S n).
Proof.
  change (_parse (z.default (z.array z.string) (VArray d [])) path (VArray id items))
    with (mapM (λ '(i, item), _parse z.string (path ++ [Index i]) item)
               (imap pair items) ≫= mergeArray).
  erewrite bind_run; [|apply (parse_string_items_issues path (λ i, i))].
  unfold mergeArray. unfold_parser. rewrite mergeItems_strings, app_nil_r.
  by destruct (forallb is_string items).
Qed.

(** X11: when [tags] is an array, each item that is not a string is
    reported, at its index, and no other item is. *)
Theorem X11_tags_items_reported_by_index c id fields n tid items j x :
  c = blog ∨ c = project →
  fields !! "tags" = Some (VArray tid items) →
  items !! j = Some x →
  invalid_type PT_string (getParsedType x) [Key "tags"; Index j]
    ∈ issues_of (validate c (VObject id fields) n).1 ↔
  is_string x = false.
Proof.
  intros Hc Htags Hj. unfold validate. rewrite safeParse_issues, schema_shape by done.
  destruct (tags_declared c Hc) as (d & _ & Hin).
  assert (get fields "tags" = VArray tid items) as Hget
    by (unfold get; by rewrite Htags).
  destruct (_parse (ZodObject (shape_of c)) [] (VObject id fields) n)
    as [[r iss] n'] eqn:Hrun. simpl. split.
  - intros Hy.
    destruct (object_issue _ _ _ _ _ _ _ _ _ Hrun Hy)
      as (k & t & m & r' & i & m' & Hkt & Hp & Hyi).
    pose proof (_parse_respects _ _ _ _ _ _ _ Hp) as [_ Hpre].
    rewrite Forall_forall in Hpre. specialize (Hpre _ Hyi).
    destruct Hpre as [rest Hrest]. simpl in Hrest. inversion Hrest; subst.
    pose proof (shape_functional _ _ _ _ (shape_NoDup c Hc) Hkt Hin) as ->.
    rewrite Hget, parse_tags_array in Hp. inversion Hp; subst.
    apply elem_of_item_issues in Hyi as (j' & x' & Hj' & Hx' & Heq).
    inversion Heq; subst. rewrite Hj in Hj'. by inversion Hj'; subst.
  - intros Hx. rewrite _parse_object in Hrun.
    destruct (mapM (parse_property [] fields) (shape_of c) n) as [[pairs iss'] n1] eqn:E.
    apply mapM_properties_run in E. inversion Hrun; subst.
    destruct (run_field _ _ _ _ _ _ _ E Hin) as (m & r' & i & m' & _ & _ & Hp & _ & Hsub).
    rewrite Hget, parse_tags_array in Hp. inversion Hp; subst.
    apply Hsub, elem_of_item_issues. by exists j, x.
Qed.

(** ** Strings that cannot be URLs *)

Lemma scheme_state_colon s rest : scheme_state s = Some rest → has_colon s = true.
Proof.
  induction s as [|c s IH]; [done|]. simpl.
  destruct (is_scheme_char c).
  - intros H. by rewrite IH, orb_true_r.
  - case_bool_decide; [done|done].
Qed.

Lemma has_colon_strip_leading s : has_colon (strip_leading s) = true → has_colon s = true.
Proof.
  induction s as [|c s IH]; [done|]. simpl.
  destruct (is_C0_or_space c); [|done]. intros H. by rewrite IH, orb_true_r.
Qed.

Lemma has_colon_strip_trailing s :
  has_colon (strip_trailing s) = true → has_colon s = true.
Proof.
  induction s as [|c s IH]; [done|]. simpl.
  destruct (strip_trailing s) as [|c' s'] eqn:E.
  - destruct (is_C0_or_space c); [done|]. simpl. rewrite orb_false_r.
    intros ->. done.
  - simpl in *. destruct (bool_decide (c = ":"%char)); [done|]. simpl.
    exact IH.
Qed.

Lemma has_colon_remove_tab_or_newline s :
  has_colon (remove_tab_or_newline s) = true → has_colon s = true.
Proof.
  induction s as [|c s IH]; [done|]. simpl.
  destruct (is_tab_or_newline c).
  - intros H. by rewrite IH, orb_true_r.
  - simpl. destruct (bool_decide (c = ":"%char)); [done|]. exact IH.
Qed.

Lemma new_URL_colon s : new_URL s = true → has_colon s = true.
Proof.
  unfold new_URL.
  destruct (scheme_start_state _) as [rest|] eqn:E; [|done]. intros _.
  apply has_colon_strip_leading, has_colon_strip_trailing,
    has_colon_remove_tab_or_newline.
  destruct (remove_tab_or_newline _) as [|c s']; [done|]. simpl in *.
  destruct (is_ascii_alpha c); [|done].
  apply scheme_state_colon in E. by rewrite E, orb_true_r.
Qed.

(** X12: a [url] or [repo] that holds no colon (an empty string, a path,
    a bare host name) is rejected, whatever the URL parser of the
    runtime does after the scheme. *)
Theorem X12_url_without_colon_rejected id fields k s n :
  k = "url" ∨ k = "repo" →
  fields !! k = Some (VString s) →
  has_colon s = false →
  ∃ issues n',
    validate project (VObject id fields) n = (Failure issues, n') ∧
    invalid_string validation_url [Key k] ∈ issues.
Proof.
  intros Hk Hfield Hcolon.
  assert (new_URL s = false) as Hurl.
  { destruct (new_URL s) eqn:E; [|done]. apply new_URL_colon in E. congruence. }
  apply (validate_field_rejected project id fields k (z.optional (z.url z.string)));
    [by right|by apply url_declared|].
  intros m. unfold get. rewrite Hfield, parse_url. simpl. rewrite Hurl.
  eexists _, _, _. split; [done|]. split; [done|by left].
Qed.

(** ** Validation depends on the content of the entry only *)

Lemma alike_mapM {A B} (S : A → A → Prop) (R : B → B → Prop)
    (f f' : A → Parser B) l l' :
  Forall2 S l l' →
  (∀ x y, S x y → alike R (f x) (f' y)) →
  alike (Forall2 R) (mapM f l) (mapM f' l').
Proof.
  intros Hll Hf. induction Hll as [|x y l l' Hxy _ IH];
    intros n m bs i n' bs' i' m' Hrun Hrun'.
  - inversion Hrun; inversion Hrun'; subst. split; [done|constructor].
  - rewrite mapM_cons in Hrun, Hrun'.
    destruct (f x n) as [[b i1] n1] eqn:E1.
    destruct (mapM f l n1) as [[bs0 i2] n2] eqn:E2.
    destruct (f' y m) as [[b' i1'] m1] eqn:E1'.
    destruct (mapM f' l' m1) as [[bs0' i2'] m2] eqn:E2'.
    inversion Hrun; inversion Hrun'; subst.
    destruct (Hf _ _ Hxy _ _ _ _ _ _ _ _ E1 E1') as [-> ?].
    destruct (IH _ _ _ _ _ _ _ _ E2 E2') as [-> ?].
    split; [done|by constructor].
Qed.

Lemma string_checks_counter checks path s dirty n m :
  (string_checks checks path s dirty n).1 = (string_checks checks path s dirty m).1.
Proof.
  revert dirty. induction checks as [|[] checks IH]; intros dirty; [done|].
  simpl. destruct (new_URL s); [apply IH|].
  unfold_parser. specialize (IH true).
  destruct (string_checks checks path s true n) as [[b i] n1].
  destruct (string_checks checks path s true m) as [[b' i'] m1].
  simpl in IH. by inversion IH.
Qed.

Lemma is_undefined_content v : is_undefined (content v) = is_undefined v.
Proof. by destruct v. Qed.

Lemma content_setProperty k v b f :
  content <$> setProperty k v b f = setProperty k (content v) b (content <$> f).
Proof.
  unfold setProperty. rewrite is_undefined_content.
  case_match; [by rewrite fmap_insert|done].
Qed.

Lemma mergeItems_alike rs rs' d acc acc' :
  Forall2 same_result rs rs' →
  map content acc = map content acc' →
  match mergeItems rs d acc, mergeItems rs' d acc' with
  | Some (d1, a), Some (d2, a') => d1 = d2 ∧ map content a = map content a'
  | None, None => True
  | _, _ => False
  end.
Proof.
  intros Hrs. revert d acc acc'.
  induction Hrs as [|r r' rs rs' Hr _ IH]; intros d acc acc' Hacc; simpl; [done|].
  destruct r, r'; simpl in Hr; try done;
    apply IH; rewrite !map_app; simpl; by rewrite Hacc, Hr.
Qed.

Lemma mergePairs_alike (ps ps' : list ObjectPair) d f f' :
  Forall2 same_pair ps ps' →
  content <$> f = content <$> f' →
  match mergePairs ps d f, mergePairs ps' d f' with
  | Some (d1, a), Some (d2, a') => d1 = d2 ∧ content <$> a = content <$> a'
  | None, None => True
  | _, _ => False
  end.
Proof.
  intros Hps. revert d f f'.
  induction Hps as [|[[k r] b] [[k' r'] b'] ps ps' (Hk & Hr & Hb) _ IH];
    intros d f f' Hf; simpl; [done|].
  simpl in Hk, Hr, Hb. subst.
  destruct r, r'; simpl in Hr; try done;
    apply IH; rewrite !content_setProperty; by rewrite Hf, Hr.
Qed.

Lemma alike_union_sync path data data' options dirty dirty' issues :
  Forall (λ o, alike same_result (_parse o path data) (_parse o path data')) options →
  match dirty, dirty' with
  | Some (r, di), Some (r', di') => same_result r r' ∧ di = di'
  | None, None => True
  | _, _ => False
  end →
  alike same_result
    (union_sync path (map (λ o, _parse o path data) options) dirty issues)
    (union_sync path (map (λ o, _parse o path data') options) dirty' issues).
Proof.
  intros Hopts. revert dirty dirty' issues.
  induction Hopts as [|o options Ho _ IH]; intros dirty dirty' issues Hd
    n m r i n' r' i' m' Hrun Hrun'.
  - simpl in Hrun, Hrun'.
    destruct dirty as [[r0 di]|], dirty' as [[r0' di']|]; try done; unfold_parser;
      inversion Hrun; inversion Hrun'; subst; [|done].
    destruct Hd as [? ->]. done.
  - simpl in Hrun, Hrun'.
    apply bind_inv in Hrun as ([r0 ci] & i1 & n1 & i2 & E1 & E2 & ->).
    apply bind_inv in Hrun' as ([r0' ci'] & i1' & m1 & i2' & E1' & E2' & ->).
    unfold childCtx in E1, E1'.
    destruct (_parse o path data n) as [[ra ia] na] eqn:Ea.
    destruct (_parse o path data' m) as [[rb ib] nb] eqn:Eb.
    inversion E1; inversion E1'; subst.
    destruct (Ho _ _ _ _ _ _ _ _ Ea Eb) as [-> Hr].
    destruct r0, r0'; simpl in Hr; try done.
    + by apply (IH _ _ _ Hd _ _ _ _ _ _ _ _ E2 E2').
    + refine (IH _ _ _ _ _ _ _ _ _ _ _ _ E2 E2').
      destruct dirty as [[? ?]|], dirty' as [[? ?]|]; done.
    + inversion E2; inversion E2'; subst. done.
Qed.

Lemma content_get fields fields' k :
  content <$> fields = content <$> fields' →
  content (get fields k) = content (get fields' k) ∧ has fields k = has fields' k.
Proof.
  intros Hf. assert ((content <$> fields) !! k = (content <$> fields') !! k) as Hk
    by (by rewrite Hf).
  rewrite !lookup_fmap in Hk. unfold get, has.
  destruct (fields !! k), (fields' !! k); simpl in *; try done.
  by inversion Hk.
Qed.

Lemma Forall2_imap_content items items' (g : nat → nat) :
  map content items = map content items' →
  Forall2 (λ x y : nat * value, x.1 = y.1 ∧ content x.2 = content y.2)
    (imap (λ i x, (g i, x)) items) (imap (λ i x, (g i, x)) items').
Proof.
  revert items' g. induction items as [|x items IH]; intros [|y items'] g Hitems;
    simpl in Hitems; try done.
  inversion Hitems. constructor; [done|]. by apply (IH items' (g ∘ S)).
Qed.

(** Parsing two deeply equal values, from any allocation counters, gives
    the same issues and deeply equal results. *)
Lemma _parse_alike t :
  ∀ path data data',
    content data = content data' →
    alike same_result (_parse t path data) (_parse t path data').
Proof.
  induction t as [checks| | |e IH|t IH|t d IH|options IH|shape IH]
    using ZodType_nested_ind; intros path data data' Hc.
  - destruct data as [| |bo|x|s|did time|aid items|oid fields],
      data' as [| |bo'|x'|s'|did' time'|aid' items'|oid' fields']; simpl in Hc; try done;
      try (inversion Hc; subst; intros ? ? ? ? ? ? ? ? [= <- <- <-] [= <- <- <-]; done).
    injection Hc as <-. intros n m r i n' r' i' m' Hrun Hrun'.
    simpl in Hrun, Hrun'. unfold_parser.
    pose proof (string_checks_counter checks path s false n m) as Hsame.
    destruct (string_checks checks path s false n) as [[b j] n1].
    destruct (string_checks checks path s false m) as [[b' j'] m1].
    simpl in Hsame. inversion Hsame; subst.
    inversion Hrun; inversion Hrun'; subst. split; [done|]. by destruct b'.
  - destruct data as [| |bo|x|s|did time|aid items|oid fields],
      data' as [| |bo'|x'|s'|did' time'|aid' items'|oid' fields']; simpl in Hc; try done;
      inversion Hc; subst; intros ? ? ? ? ? ? ? ? [= <- <- <-] [= <- <- <-]; done.
  - destruct data as [| |bo|x|s|did time|aid items|oid fields],
      data' as [| |bo'|x'|s'|did' time'|aid' items'|oid' fields']; simpl in Hc; try done;
      try (inversion Hc; subst; intros ? ? ? ? ? ? ? ? [= <- <- <-] [= <- <- <-]; done).
    injection Hc as <-. simpl. destruct (PrimFloat.is_nan time);
      intros ? ? ? ? ? ? ? ? [= <- <- <-] [= <- <- <-]; done.
  - destruct data as [| |bo|x|s|did time|aid items|oid fields],
      data' as [| |bo'|x'|s'|did' time'|aid' items'|oid' fields']; simpl in Hc; try done;
      try (inversion Hc; subst; intros ? ? ? ? ? ? ? ? [= <- <- <-] [= <- <- <-]; done).
    inversion Hc as [Hitems]. intros n m r i n' r' i' m' Hrun Hrun'.
    simpl in Hrun, Hrun'.
    apply bind_inv in Hrun as (rs & i1 & n1 & i2 & E1 & E2 & ->).
    apply bind_inv in Hrun' as (rs' & i1' & m1 & i2' & E1' & E2' & ->).
    assert (Forall2 (λ x y : nat * value, x.1 = y.1 ∧ content x.2 = content y.2)
              (imap pair items) (imap pair items')) as Himap.
    { exact (Forall2_imap_content items items' id Hitems). }
    assert (alike (Forall2 same_result)
              (mapM (λ '(i, item), _parse e (path ++ [Index i]) item) (imap pair items))
              (mapM (λ '(i, item), _parse e (path ++ [Index i]) item) (imap pair items')))
      as Hm.
    { apply (alike_mapM (λ x y : nat * value, x.1 = y.1 ∧ content x.2 = content y.2));
        [exact Himap|].
      intros [j x0] [j' y] [Hj Hxy]. simpl in *. subst. by apply IH. }
    destruct (Hm _ _ _ _ _ _ _ _ E1 E1') as [-> Hrs]. clear Hm.
    unfold mergeArray in E2, E2'. unfold_parser.
    inversion E2; inversion E2'; subst. split; [done|].
    pose proof (mergeItems_alike rs rs' false [] [] Hrs eq_refl) as Hm.
    destruct (mergeItems rs false []) as [[[] a]|],
             (mergeItems rs' false []) as [[[] a']|]; simpl; try done;
      destruct Hm as [? Hm]; try done; by rewrite Hm.
  - destruct data as [| |bo|x|s|did time|aid items|oid fields],
      data' as [| |bo'|x'|s'|did' time'|aid' items'|oid' fields']; simpl in Hc; try done; try (by apply IH).
    intros ? ? ? ? ? ? ? ? [= <- <- <-] [= <- <- <-]. done.
  - simpl. apply IH. destruct data as [| |bo|x|s|did time|aid items|oid fields],
      data' as [| |bo'|x'|s'|did' time'|aid' items'|oid' fields']; simpl in Hc; try done.
  - simpl. apply alike_union_sync; [|done].
    eapply Forall_impl; [exact IH|]. intros o Ho. by apply Ho.
  - destruct data as [| |bo|x|s|did time|aid items|oid fields],
      data' as [| |bo'|x'|s'|did' time'|aid' items'|oid' fields']; simpl in Hc; try done;
      try (inversion Hc; subst; intros ? ? ? ? ? ? ? ? [= <- <- <-] [= <- <- <-]; done).
    inversion Hc as [Hfields]. intros n m r i n' r' i' m' Hrun Hrun'.
    rewrite _parse_object in Hrun, Hrun'.
    destruct (mapM (parse_property path fields) shape n) as [[ps i1] n1] eqn:E1.
    destruct (mapM (parse_property path fields') shape m) as [[ps' i1'] m1] eqn:E1'.
    inversion Hrun; inversion Hrun'; subst.
    assert (Forall2 (λ x y : string * ZodType, x = y ∧ x ∈ shape) shape shape) as Hshape.
    { apply Forall2_same_length_lookup_2; [done|].
      intros j x y Hx Hy. rewrite Hx in Hy. inversion Hy; subst.
      split; [done|]. by eapply list_elem_of_lookup_2. }
    assert (alike (Forall2 same_pair)
              (mapM (parse_property path fields) shape)
              (mapM (parse_property path fields') shape)) as Hps.
    { apply (alike_mapM (λ x y : string * ZodType, x = y ∧ x ∈ shape));
        [exact Hshape|].
      intros [k t] ? [<- Hin] n0 m0 p j n0' p' j' m0' Hp Hp'.
      unfold parse_property in Hp, Hp'. unfold_parser.
      rewrite Forall_forall in IH. specialize (IH _ Hin). simpl in IH.
      destruct (content_get fields fields' k Hfields) as [Hget Hhas].
      destruct (_parse t (path ++ [Key k]) (get fields k) n0) as [[ra ia] na] eqn:Ea.
      destruct (_parse t (path ++ [Key k]) (get fields' k) m0) as [[rb ib] nb] eqn:Eb.
      inversion Hp; inversion Hp'; subst.
      destruct (IH _ _ _ Hget _ _ _ _ _ _ _ _ Ea Eb) as [-> Hr].
      split; [done|]. by repeat split. }
    destruct (Hps _ _ _ _ _ _ _ _ E1 E1') as [-> Hpairs]. clear Hps.
    split; [done|].
    pose proof (mergePairs_alike ps ps' false ∅ ∅ Hpairs eq_refl) as Hm.
    destruct (mergePairs ps false ∅) as [[[] a]|],
             (mergePairs ps' false ∅) as [[[] a']|]; simpl; try done;
      destruct Hm as [? Hm]; try done; by rewrite Hm.
Qed.

(** X13: the outcome of validation depends on the content of the entry
    only: two deeply equal entries, validated at any two moments, get
    the same issues, and deeply equal records when they are accepted.
    Nothing is carried over from one validation to the next. *)
Theorem X13_outcome_depends_on_content_only t data data' n m :
  content data = content data' →
  issues_of (safeParse t data n).1 = issues_of (safeParse t data' m).1 ∧
  match (safeParse t data n).1, (safeParse t data' m).1 with
  | Success out, Success out' => content out = content out'
  | Failure _, Failure _ => True
  | _, _ => False
  end.
Proof.
  intros Hc. unfold safeParse.
  destruct (_parse t [] data n) as [[r i] n'] eqn:E.
  destruct (_parse t [] data' m) as [[r' i'] m'] eqn:E'.
  destruct (_parse_alike t [] data data' Hc _ _ _ _ _ _ _ _ E E') as [-> Hr].
  destruct r, r'; simpl in *; done.
Qed.

End Validator.

(** ** Concrete runs *)

Example devlog_entry_accepted :
  validate accept_after_scheme blog (VObject 4 devlog_entry) 5 =
  (Success (VObject 7
     {[ "title" := VString "Building My GOM (Game Object Model) System";
        "description" := VString "How I designed a component-based game object architecture for my 2D game engine.";
        "date" := VDate 5 1768435200000%float;
        "project" := VString "game-engine";
        "tags" := VArray 6 [VString "gamedev"; VString "csharp"; VString "raylib"];
        "draft" := VBoolean false ]}), 8).
Proof. vm_compute. reflexivity. Qed.

(** Mistyped fields are all reported, each at its own path. *)
Example mistyped_entry_rejected :
  (validate accept_after_scheme project
     (VObject 2 {[ "title" := VNumber 1%float;
                   "date" := VString "2026-01-15";
                   "url" := VString "https://andarms.com";
                   "tags" := VArray 3 [VString "a"; VNull];
                   "draft" := VString "no" ]}) 4).1 =
  Failure [ invalid_type PT_string PT_number [Key "title"];
            invalid_type PT_string PT_null [Key "tags"; Index 1];
            invalid_type PT_boolean PT_string [Key "draft"] ].
Proof. vm_compute. reflexivity. Qed.

Lemma C2_missing_required_field_witness :
  ∃ issues n',
    validate accept_after_scheme blog (VObject 2 entry_without_title) 3
      = (Failure issues, n') ∧
    invalid_type PT_string PT_undefined [Key "title"] ∈ issues.
Proof.
  destruct (C2_missing_required_field accept_after_scheme blog 2
              entry_without_title 3) as (issues & n' & Hrun & Htitle & _).
  - left. reflexivity.
  - left. reflexivity.
  - exists issues, n'. split; [exact Hrun|]. apply Htitle. reflexivity.
Defined.



Lemma C5_date_forms_witness :
  Forall (λ i, ¬ concerns "date" i)
    (issues_of (validate accept_after_scheme blog (VObject 2 scenario_A_fields) 3).1).
Proof.
  exact (C5_date_forms accept_after_scheme blog 2 scenario_A_fields 3
           (or_introl eq_refl)).
Defined.

(** A date whose time value is [NaN] is a date value, yet the entry is
    rejected with an issue at [date]. *)
Lemma C5_invalid_date_counterexample :
  getParsedType (get entry_with_invalid_date "date") = PT_date ∧
  (validate accept_after_scheme blog (VObject 3 entry_with_invalid_date) 4).1 =
    Failure [invalid_union [[invalid_type PT_string PT_date [Key "date"]];
                            [invalid_date [Key "date"]]] [Key "date"]] ∧
  concerns "date"
    (invalid_union [[invalid_type PT_string PT_date [Key "date"]];
                    [invalid_date [Key "date"]]] [Key "date"]).
Proof.
  split; [by vm_compute|]. split; [by vm_compute|]. by exists [].
Qed.

Lemma C6_idempotent_witness :
  ∃ out' m',
    validate accept_after_scheme blog (scenario_A_normalized 3 4) 5
      = (Success out', m') ∧
    content out' = content (scenario_A_normalized 3 4).
Proof.
  apply (C6_idempotent accept_after_scheme blog (scenario_A 2) 3
           (scenario_A_normalized 3 4) 5).
  - left. reflexivity.
  - vm_compute. reflexivity.
Defined.

Lemma C7_extra_keys_witness :
  validate accept_after_scheme blog
    (VObject 6 ({[ "author" := VString "andarms" ]} ∪ scenario_A_fields)) 3
  = (Success (scenario_A_normalized 3 4), 5).
Proof.
  apply (C7_extra_keys accept_after_scheme blog 2 scenario_A_fields).
  - left. reflexivity.
  - intros k Hk. apply lookup_singleton_ne. intros <-. revert Hk.
    apply (bool_decide_unpack _). vm_compute. reflexivity.
  - vm_compute. reflexivity.
Defined.

Lemma C8_query_filters_in_order_witness :
  Query scenario_C "blog" (Some (draft_is false))
    = [ post "a" false; post "c" false; post "e" false ] ∧
  length (Query scenario_C "blog" (Some (draft_is false))) = 3.
Proof.
  split; [vm_compute; reflexivity|].
  destruct (C8_query_filters_in_order scenario_C "blog"
              [ post "a" false; post "b" true; post "c" false;
                post "d" true; post "e" false ] (draft_is false))
    as (_ & _ & _ & Hscenario).
  - reflexivity.
  - apply Hscenario.
    + reflexivity.
    + repeat constructor; eexists; vm_compute; reflexivity.
    + vm_compute. reflexivity.
Defined.



Lemma C10_only_declared_fields_witness :
  (∃ oid final n',
     validate accept_after_scheme blog (VObject 2 entry_with_author) 3
       = (Success (VObject oid final), n') ∧
     final !! "author" = None) ∧
  (∃ oid final n',
     validate accept_after_scheme blog
       (VObject 2 (<["project" := VString "no such project"]> entry_with_author)) 3
       = (Success (VObject oid final), n') ∧
     final !! "project" = Some (VString "no such project") ∧
     final !! "author" = None).
Proof.
  destruct (C10_only_declared_fields accept_after_scheme blog "project" 2
              entry_with_author 3) as (Hstrip & _ & _).
  { left. split; reflexivity. }
  destruct (C10_only_declared_fields accept_after_scheme blog "project" 2
              (<["project" := VString "no such project"]> entry_with_author) 3)
    as (Hstrip' & _ & _).
  { left. split; reflexivity. }
  destruct (C10_only_declared_fields accept_after_scheme blog "project" 2
              entry_with_author 3) as (_ & _ & Hany).
  { left. split; reflexivity. }
  assert ("author" ∉ declared_keys blog) as Hauthor.
  { apply (bool_decide_unpack _). vm_compute. reflexivity. }
  split.
  - destruct Hstrip as (oid & final & n' & Hrun & _ & Hother); [reflexivity|].
    exists oid, final, n'. split; [exact Hrun|]. apply Hother, Hauthor.
  - destruct (Hany "no such project") as (_ & Hstring & _).
    destruct Hstring as (oid & final & n' & Hrun & Hproject); [reflexivity|].
    destruct Hstrip' as (oid' & final' & n'' & Hrun' & _ & Hother'); [reflexivity|].
    rewrite Hrun in Hrun'. injection Hrun' as <- <- <-.
    exists oid, final, n'. split; [exact Hrun|]. split; [exact Hproject|].
    apply Hother', Hauthor.
Defined.

(** ** Concrete runs of the further properties *)

Lemma X2_failure_reports_an_issue_witness :
  [invalid_type PT_string PT_undefined [Key "title"]] ≠ [].
Proof.
  apply (X2_failure_reports_an_issue accept_after_scheme (schema blog)
           (VObject 2 entry_without_title) 3 _ 5).
  vm_compute. reflexivity.
Defined.

Lemma X5_issue_at_field_iff_not_accepted_witness :
  (∃ i, i ∈ issues_of (validate accept_after_scheme blog
                         (VObject 2 entry_without_title) 3).1 ∧
        concerns "title" i) ↔
  accepts accept_after_scheme z.string (get entry_without_title "title") = false.
Proof.
  apply (X5_issue_at_field_iff_not_accepted accept_after_scheme blog "title"
           z.string 2 entry_without_title 3).
  - left. reflexivity.
  - apply list_elem_of_here.
Defined.

Lemma X6_issues_at_declared_keys_witness :
  ∃ k, k ∈ declared_keys blog ∧
       concerns k (invalid_type PT_string PT_undefined [Key "title"]).
Proof.
  apply (X6_issues_at_declared_keys accept_after_scheme blog 2
           entry_without_title 3).
  - left. reflexivity.
  - vm_compute. apply list_elem_of_here.
Defined.

Lemma X7_not_a_record_witness :
  validate accept_after_scheme blog VNull 3 =
    (Failure [invalid_type PT_object PT_null []], 3).
Proof.
  apply (X7_not_a_record accept_after_scheme blog VNull 3).
  - left. reflexivity.
  - simpl. discriminate.
Defined.

Lemma X8_keys_of_normalized_record_witness :
  is_Some (({[ "title" := VString "Hello";
               "date" := VString "2026-01-15";
               "tags" := VArray 3 [];
               "draft" := VBoolean false ]} : gmap string value) !! "tags") ↔
  ∃ t, ("tags", t) ∈ shape_of blog ∧
       (is_optional t = false ∨ is_Some (scenario_A_fields !! "tags")).
Proof.
  apply (X8_keys_of_normalized_record accept_after_scheme blog 2
           scenario_A_fields 3 4 _ 5 "tags").
  - left. reflexivity.
  - vm_compute. reflexivity.
Defined.

Lemma X9_provided_values_unchanged_witness :
  content (prop entry_with_project_normalized "project")
  = content (get entry_with_project "project").
Proof.
  apply (X9_provided_values_unchanged accept_after_scheme blog 2
           entry_with_project 3 entry_with_project_normalized 5 "project").
  - left. reflexivity.
  - vm_compute. reflexivity.
  - vm_compute. do 4 apply list_elem_of_further. apply list_elem_of_here.
  - reflexivity.
Defined.

Lemma X10_normalized_record_is_new_witness : 3 ≤ 3 ∧ 3 < 5.
Proof.
  apply (X10_normalized_record_is_new accept_after_scheme blog 2
           entry_with_project 3 entry_with_project_normalized 5 3).
  - left. reflexivity.
  - vm_compute. reflexivity.
  - apply (identity_property 3 4 _ "tags" (VArray 3 [])).
    + reflexivity.
    + apply identity_array.
Defined.

Lemma X11_tags_items_reported_by_index_witness :
  invalid_type PT_string (getParsedType VNull) [Key "tags"; Index 1]
    ∈ issues_of (validate accept_after_scheme blog
                   (VObject 3 entry_with_bad_tag) 4).1 ↔
  is_string VNull = false.
Proof.
  apply (X11_tags_items_reported_by_index accept_after_scheme blog 3
           entry_with_bad_tag 4 2 [VString "gamedev"; VNull] 1 VNull).
  - left. reflexivity.
  - reflexivity.
  - reflexivity.
Defined.

Lemma X12_url_without_colon_rejected_witness :
  ∃ issues n',
    validate accept_after_scheme project (VObject 2 scenario_B_fields) 3
      = (Failure issues, n') ∧
    invalid_string validation_url [Key "repo"] ∈ issues.
Proof.
  apply (X12_url_without_colon_rejected accept_after_scheme 2 scenario_B_fields
           "repo" "not-a-url" 3).
  - right. reflexivity.
  - reflexivity.
  - reflexivity.
Defined.

Lemma X13_outcome_depends_on_content_only_witness :
  issues_of (safeParse accept_after_scheme (schema blog) (scenario_A 2) 3).1
  = issues_of (safeParse accept_after_scheme (schema blog) (scenario_A 9) 20).1 ∧
  match (safeParse accept_after_scheme (schema blog) (scenario_A 2) 3).1,
        (safeParse accept_after_scheme (schema blog) (scenario_A 9) 20).1 with
  | Success out, Success out' => content out = content out'
  | Failure _, Failure _ => True
  | _, _ => False
  end.
Proof.
  apply (X13_outcome_depends_on_content_only accept_after_scheme (schema blog)
           (scenario_A 2) (scenario_A 9) 3 20).
  vm_compute. reflexivity.
Defined.
